(** * File caching: size-bounded cache over a pluggable storage backend

    Shallow embedding of [mayan/apps/file_caching/models.py]:
    the [Cache], [CachePartition] and [CachePartitionFile] models, the
    eviction loop [Cache.prune], the create-file protocol
    [CachePartition.create_file] and the delete and purge paths.

    Python methods become functions in a state-and-exception monad [Op]
    over a [World] that holds the three database tables, the storage
    registry, the state of every storage backend and the named-lock
    service.  A raised exception keeps the state reached so far, as in
    Python: nothing is rolled back.  The event decorations
    ([method_event]) only notify an event sink and are left out. *)

From stdpp Require Import gmap strings list pretty.
From Stdlib Require Import ZArith Lia Ascii.

Local Open Scope Z_scope.

(** ** Exceptions and outcomes *)

Inductive Exception : Type :=
| LockError
| KeyError
| RuntimeError (message : string)
| IntegrityError
| DoesNotExist
| ImportError
| BackendIOError
| CallerError (tag : string).

Global Instance Exception_eq_dec : EqDecision Exception.
Proof. solve_decision. Defined.

Inductive Outcome (A : Type) : Type :=
| Ok (a : A)
| Raise (e : Exception).
Arguments Ok {A} a.
Arguments Raise {A} e.

(** ** Data model *)

Abbreviation bytes := (list Byte.byte).

(** [DefinedStorage(dotted_path, label, name)]. *)
Record DefinedStorage : Type := {
  dotted_path : string;
  label : string;
  name : string
}.

(** The five operations of a storage backend. *)
Inductive StorageOp : Type := OpOpen | OpSave | OpDelete | OpExists | OpSize.

(** Modelled from the spec: the storage backend is an external
    collaborator, "byte blob operations keyed by name".  Its state is the
    finite map of stored objects; [fault op key] tells that the backend
    fails (BackendIOError) when [op] is called on [key]. *)
Record Backend : Type := {
  objects : gmap string bytes;
  fault : StorageOp → string → bool
}.

(** [class Cache(models.Model)]; [pk] is [None] until first saved. *)
Record Cache : Type := {
  cache_pk : option Z;
  defined_storage_name : string;
  maximum_size : Z
}.

(** [class CachePartition(models.Model)]. *)
Record CachePartition : Type := {
  partition_pk : Z;
  partition_cache : Z;          (* ForeignKey to Cache *)
  partition_name : string
}.

(** [class CachePartitionFile(models.Model)]. *)
Record CachePartitionFile : Type := {
  file_pk : Z;
  file_partition : Z;           (* ForeignKey to CachePartition *)
  datetime : Z;                 (* auto_now_add *)
  filename : string;
  file_size : Z
}.

(** A stream handed out by [storage.open]: the key it writes to. *)
Record Stream : Type := {
  stream_storage : string;
  stream_name : string;
  stream_mode : string
}.

Record World : Type := {
  caches : list Cache;
  partitions : list CachePartition;
  files : list CachePartitionFile;
  registry : gmap string DefinedStorage;   (* DefinedStorage._registry *)
  stores : gmap string Backend;            (* backend state, by storage name *)
  locks : gset string;                     (* names of the locks now held *)
  clock : Z;                               (* the time the next record gets *)
  next_file_pk : Z;
  next_cache_pk : Z;
  maximum_prune_attempts : Z               (* setting_maximum_prune_attempts.value *)
}.

Definition set_caches (x : list Cache) (w : World) : World :=
  {| caches := x; partitions := partitions w; files := files w;
     registry := registry w; stores := stores w; locks := locks w;
     clock := clock w; next_file_pk := next_file_pk w;
     next_cache_pk := next_cache_pk w;
     maximum_prune_attempts := maximum_prune_attempts w |}.

Definition set_partitions (x : list CachePartition) (w : World) : World :=
  {| caches := caches w; partitions := x; files := files w;
     registry := registry w; stores := stores w; locks := locks w;
     clock := clock w; next_file_pk := next_file_pk w;
     next_cache_pk := next_cache_pk w;
     maximum_prune_attempts := maximum_prune_attempts w |}.

Definition set_files (x : list CachePartitionFile) (w : World) : World :=
  {| caches := caches w; partitions := partitions w; files := x;
     registry := registry w; stores := stores w; locks := locks w;
     clock := clock w; next_file_pk := next_file_pk w;
     next_cache_pk := next_cache_pk w;
     maximum_prune_attempts := maximum_prune_attempts w |}.

Definition set_stores (x : gmap string Backend) (w : World) : World :=
  {| caches := caches w; partitions := partitions w; files := files w;
     registry := registry w; stores := x; locks := locks w;
     clock := clock w; next_file_pk := next_file_pk w;
     next_cache_pk := next_cache_pk w;
     maximum_prune_attempts := maximum_prune_attempts w |}.

Definition set_locks (x : gset string) (w : World) : World :=
  {| caches := caches w; partitions := partitions w; files := files w;
     registry := registry w; stores := stores w; locks := x;
     clock := clock w; next_file_pk := next_file_pk w;
     next_cache_pk := next_cache_pk w;
     maximum_prune_attempts := maximum_prune_attempts w |}.

(** A new file record takes the current time and the next key. *)
Definition tick_file (w : World) : World :=
  {| caches := caches w; partitions := partitions w; files := files w;
     registry := registry w; stores := stores w; locks := locks w;
     clock := clock w + 1; next_file_pk := next_file_pk w + 1;
     next_cache_pk := next_cache_pk w;
     maximum_prune_attempts := maximum_prune_attempts w |}.

Definition tick_cache (w : World) : World :=
  {| caches := caches w; partitions := partitions w; files := files w;
     registry := registry w; stores := stores w; locks := locks w;
     clock := clock w; next_file_pk := next_file_pk w;
     next_cache_pk := next_cache_pk w + 1;
     maximum_prune_attempts := maximum_prune_attempts w |}.

(** ** The monad of operations *)

Definition Op (A : Type) : Type := World → Outcome A * World.

Definition ret {A} (a : A) : Op A := fun w => (Ok a, w).

Definition raise {A} (e : Exception) : Op A := fun w => (Raise e, w).

Definition bind {A B} (m : Op A) (k : A → Op B) : Op B := fun w =>
  match m w with
  | (Ok a, w') => k a w'
  | (Raise e, w') => (Raise e, w')
  end.

Declare Scope op_scope.
Delimit Scope op_scope with op.
Notation "x <~ m ;; k" := (bind m (fun x => k))
  (at level 100, m at next level, right associativity) : op_scope.
Notation "m ;;; k" := (bind m (fun _ => k))
  (at level 100, right associativity) : op_scope.
Local Open Scope op_scope.

(** [attempt m] runs [m] and hands its outcome to the continuation: the
    [try:] part of a [try/except/else]. *)
Definition attempt {A} (m : Op A) : Op (Outcome A) := fun w =>
  let '(r, w') := m w in (Ok r, w').

(** [try: body finally: fin]. *)
Definition try_finally {A} (body : Op A) (fin : Op unit) : Op A := fun w =>
  let '(r, w1) := body w in
  match fin w1 with
  | (Ok _, w2) => (r, w2)
  | (Raise e, w2) => (Raise e, w2)
  end.

(** [for x in l: body(x)], over a list fixed when the loop starts. *)
Fixpoint for_each {A} (l : list A) (body : A → Op unit) : Op unit :=
  match l with
  | [] => ret tt
  | x :: l' => body x;;; for_each l' body
  end.

Definition lift_option {A} (e : Exception) (o : option A) : Op A :=
  match o with Some a => ret a | None => raise e end.

(** ** The storage registry and the storage backend *)

(** Modelled from the spec: [DefinedStorage.get] is the registry lookup
    "resolving a logical cache name"; an unknown name is a KeyError. *)
Definition DefinedStorage_get (n : string) : Op DefinedStorage := fun w =>
  lift_option KeyError (registry w !! n) w.

(** Modelled from the spec: [get_storage_instance] instantiates the backend
    class named by the dotted path; the empty path names no class.  The
    instance is identified by the name of its defined storage. *)
Definition get_storage_instance (d : DefinedStorage) : Op string :=
  if decide (dotted_path d = "") then raise ImportError else ret (name d).

Definition empty_backend : Backend :=
  {| objects := ∅; fault := fun _ _ => false |}.

Definition get_backend (s : string) (w : World) : Backend :=
  default empty_backend (stores w !! s).

Definition set_objects (x : gmap string bytes) (b : Backend) : Backend :=
  {| objects := x; fault := fault b |}.

(** Runs one backend operation of storage [s]. *)
Definition storage_call {A} (s : string) (op : StorageOp) (key : string)
    (f : Backend → Outcome (A * Backend)) : Op A := fun w =>
  let b := get_backend s w in
  if fault b op key then (Raise BackendIOError, w)
  else match f b with
       | Ok (a, b') => (Ok a, set_stores (<[s := b']> (stores w)) w)
       | Raise e => (Raise e, w)
       end.

(** Modelled from the spec: "delete(key) (must not fail if key absent)". *)
Definition storage_delete (s : string) (key : string) : Op unit :=
  storage_call s OpDelete key
    (fun b => Ok (tt, set_objects (delete key (objects b)) b)).

(** Modelled from the spec: "save(key, bytes)". *)
Definition storage_save (s : string) (key : string) (content : bytes) : Op unit :=
  storage_call s OpSave key
    (fun b => Ok (tt, set_objects (<[key := content]> (objects b)) b)).

(** Modelled from the spec: "open(key, mode) -> stream"; a missing object is
    a backend error, and the write mode empties the object. *)
Definition storage_open (s : string) (key : string) (mode : string) : Op Stream :=
  storage_call s OpOpen key
    (fun b => match objects b !! key with
              | None => Raise BackendIOError
              | Some old =>
                  Ok ({| stream_storage := s; stream_name := key; stream_mode := mode |},
                      if decide (mode = "wb")
                      then set_objects (<[key := []]> (objects b)) b
                      else b)
              end).

(** Modelled from the spec: "exists(key) -> bool". *)
Definition storage_exists (s : string) (key : string) : Op bool :=
  storage_call s OpExists key
    (fun b => Ok (bool_decide (is_Some (objects b !! key)), b)).

(** Modelled from the spec: "size(key) -> integer". *)
Definition storage_size (s : string) (key : string) : Op Z :=
  storage_call s OpSize key
    (fun b => match objects b !! key with
              | None => Raise BackendIOError
              | Some content => Ok (Z.of_nat (length content), b)
              end).

(** What a caller does with the stream it was handed: append bytes to the
    object the stream was opened on. *)
Definition stream_write (stream : Stream) (chunk : bytes) : Op unit := fun w =>
  let s := stream_storage stream in
  let b := get_backend s w in
  match objects b !! stream_name stream with
  | None => (Raise BackendIOError, w)
  | Some old =>
      (Ok tt, set_stores (<[s := set_objects
                 (<[stream_name stream := old ++ chunk]> (objects b)) b]> (stores w)) w)
  end.

(** ** The named-lock service *)

(** Modelled from the spec: "acquire(name) -> Lock (fails with LockError if
    unavailable), Lock.release()"; locks are not reentrant. *)
Definition acquire_lock (n : string) : Op string := fun w =>
  if decide (n ∈ locks w) then (Raise LockError, w)
  else (Ok n, set_locks ({[n]} ∪ locks w) w).

Definition release (lock : string) : Op unit := fun w =>
  (Ok tt, set_locks (locks w ∖ {[lock]}) w).

(** Modelled from the spec: [locked_class_method] runs the method under the
    lock named by [_lock_manager_get_lock_name], released on every exit,
    unless called with [_acquire_lock=False] ("skip lock acquisition"). *)
Definition locked_class_method {A} (lock_name : Op string) (method : Op A)
    (_acquire_lock : bool) : Op A :=
  if _acquire_lock then
    n <~ lock_name;;
    lock <~ acquire_lock n;;
    try_finally method (release lock)
  else method.

(** ** Database queries *)

Definition has_pk (pk : Z) (f : CachePartitionFile) : bool :=
  bool_decide (file_pk f = pk).

Definition same_key (partition : Z) (fname : string) (f : CachePartitionFile) : bool :=
  bool_decide (file_partition f = partition) && bool_decide (filename f = fname).

(** Following a ForeignKey: the row with that key, or DoesNotExist. *)
Definition get_partition (pk : Z) : Op CachePartition := fun w =>
  lift_option DoesNotExist
    (find (fun p => bool_decide (partition_pk p = pk)) (partitions w)) w.

Definition get_cache (pk : Z) : Op Cache := fun w =>
  lift_option DoesNotExist
    (find (fun c => bool_decide (cache_pk c = Some pk)) (caches w)) w.

(** [self.files.create(filename=filename)]: [unique_together] on
    [(partition, filename)], [auto_now_add] date, default size 0. *)
Definition files_create (self : CachePartition) (fname : string) : Op CachePartitionFile := fun w =>
  if existsb (same_key (partition_pk self) fname) (files w)
  then (Raise IntegrityError, w)
  else
    let f := {| file_pk := next_file_pk w; file_partition := partition_pk self;
                datetime := clock w; filename := fname; file_size := 0 |} in
    (Ok f, tick_file (set_files (files w ++ [f]) w)).

(** [super().delete()] of a file: removes the row with that key. *)
Definition file_delete_record (self : CachePartitionFile) : Op unit := fun w =>
  (Ok tt, set_files (List.filter (fun f => negb (has_pk (file_pk self) f)) (files w)) w).

(** [self.save()] of a file: updates the row with that key, or inserts it
    when there is none. *)
Definition file_save (self : CachePartitionFile) : Op unit := fun w =>
  if existsb (has_pk (file_pk self)) (files w)
  then (Ok tt, set_files
          (map (fun f => if has_pk (file_pk self) f then self else f) (files w)) w)
  else if existsb (same_key (file_partition self) (filename self)) (files w)
  then (Raise IntegrityError, w)
  else (Ok tt, set_files (files w ++ [self]) w).

(** [self.files.all()]. *)
Definition partition_files (self : CachePartition) (w : World) : list CachePartitionFile :=
  List.filter (fun f => bool_decide (file_partition f = partition_pk self)) (files w).

(** [self.partitions.all()]. *)
Definition cache_partitions (self : Cache) (w : World) : list CachePartition :=
  List.filter (fun p => bool_decide (Some (partition_cache p) = cache_pk self)) (partitions w).

(** [.earliest()] with [get_latest_by = 'datetime']: the first row in
    ascending date order; among rows of equal date, the first of the
    table. *)
Fixpoint earliest (l : list CachePartitionFile) : option CachePartitionFile :=
  match l with
  | [] => None
  | f :: l' =>
      match earliest l' with
      | Some g => if datetime g <? datetime f then Some g else Some f
      | None => Some f
      end
  end.

(** ** Names *)

(** [CachePartition.get_combined_filename]. *)
Definition get_combined_filename (parent fname : string) : string :=
  parent +:+ "-" +:+ fname.

(** How [str.format] prints a primary key. *)
Definition format_pk (pk : option Z) : string :=
  match pk with Some z => pretty z | None => "None" end.

(** [CachePartition.get_file_lock_name]; [self.cache] follows the key. *)
Definition get_file_lock_name (self : CachePartition) (fname : string) : Op string :=
  cache <~ get_cache (partition_cache self);;
  ret ("cache_partition-file-" +:+ format_pk (cache_pk cache) +:+ "-"
       +:+ pretty (partition_pk self) +:+ "-" +:+ fname).

(** [CachePartition.get_full_filename]. *)
Definition get_full_filename (self : CachePartition) (fname : string) : string :=
  get_combined_filename (partition_name self) fname.

(** ** Cache: storage resolution *)

(** [Cache.get_defined_storage]. *)
Definition get_defined_storage (self : Cache) : Op DefinedStorage :=
  r <~ attempt (DefinedStorage_get (defined_storage_name self));;
  match r with
  | Ok d => ret d
  | Raise KeyError =>
      ret {| dotted_path := ""; label := "Unknown"; name := "unknown" |}
  | Raise e => raise e
  end.

(** [Cache.label]. *)
Definition Cache_label (self : Cache) : Op string :=
  d <~ get_defined_storage self;; ret (label d).

(** [Cache.storage]. *)
Definition Cache_storage (self : Cache) : Op string :=
  d <~ get_defined_storage self;; get_storage_instance d.

(** ** CachePartitionFile *)

(** [CachePartitionFile._lock_manager_get_lock_name]. *)
Definition file_lock_name (self : CachePartitionFile) : Op string :=
  partition <~ get_partition (file_partition self);;
  get_file_lock_name partition (filename self).

(** [CachePartitionFile.full_filename]. *)
Definition full_filename (self : CachePartitionFile) : Op string :=
  partition <~ get_partition (file_partition self);;
  ret (get_combined_filename (partition_name partition) (filename self)).

(** [self.partition.cache.storage]. *)
Definition file_storage (self : CachePartitionFile) : Op string :=
  partition <~ get_partition (file_partition self);;
  cache <~ get_cache (partition_cache partition);;
  Cache_storage cache.

(** [CachePartitionFile.close]; the stream held by the instance is passed
    in and the one it holds afterwards is returned. *)
Definition CachePartitionFile_close (self : CachePartitionFile)
    (_storage_object : option Stream) (_acquire_lock : bool) : Op (option Stream) :=
  locked_class_method (file_lock_name self) (ret None) _acquire_lock.

(** [CachePartitionFile.delete]. *)
Definition CachePartitionFile_delete (self : CachePartitionFile)
    (_acquire_lock : bool) : Op unit :=
  locked_class_method (file_lock_name self)
    (storage <~ file_storage self;;
     key <~ full_filename self;;
     storage_delete storage key;;;
     file_delete_record self)
    _acquire_lock.

(** [CachePartitionFile.exists]. *)
Definition CachePartitionFile_exists (self : CachePartitionFile)
    (_acquire_lock : bool) : Op bool :=
  locked_class_method (file_lock_name self)
    (storage <~ file_storage self;;
     key <~ full_filename self;;
     storage_exists storage key)
    _acquire_lock.

(** [CachePartitionFile.open]; the handler logs and re-raises. *)
Definition CachePartitionFile_open (self : CachePartitionFile) (mode : string)
    (_acquire_lock : bool) : Op Stream :=
  locked_class_method (file_lock_name self)
    (storage <~ file_storage self;;
     key <~ full_filename self;;
     storage_open storage key mode)
    _acquire_lock.

Definition with_file_size (size : Z) (f : CachePartitionFile) : CachePartitionFile :=
  {| file_pk := file_pk f; file_partition := file_partition f;
     datetime := datetime f; filename := filename f; file_size := size |}.

(** [CachePartitionFile.update_size]; returns the instance as it is after
    the call. *)
Definition update_size (self : CachePartitionFile) (_acquire_lock : bool)
    : Op CachePartitionFile :=
  locked_class_method (file_lock_name self)
    (storage <~ file_storage self;;
     key <~ full_filename self;;
     size <~ storage_size storage key;;
     file_save (with_file_size size self);;;
     ret (with_file_size size self))
    _acquire_lock.

(** ** Cache *)

Definition in_cache (self : Cache) (w : World) (f : CachePartitionFile) : bool :=
  match find (fun p => bool_decide (partition_pk p = file_partition f)) (partitions w) with
  | Some p => bool_decide (Some (partition_cache p) = cache_pk self)
  | None => false
  end.

(** [Cache.get_files]: [filter(partition__cache__id=self.pk)]. *)
Definition get_files (self : Cache) (w : World) : list CachePartitionFile :=
  List.filter (in_cache self w) (files w).

Definition sum_sizes (l : list CachePartitionFile) : Z :=
  fold_right (fun f acc => file_size f + acc) 0 l.

(** [Cache.get_total_size]. *)
Definition get_total_size (self : Cache) (w : World) : Z :=
  sum_sizes (get_files self w).

(** The file one iteration of [prune] tries to delete, when it tries:
    the loop test and the [earliest()] query. *)
Definition prune_victim (self : Cache) (w : World) : option CachePartitionFile :=
  if maximum_size self <? get_total_size self w
  then earliest (get_files self w) else None.

(** What one iteration of the [while] loop of [Cache.prune] decides. *)
Inductive LoopStep : Type :=
| Break
| Continue (attempts : Z).

(** The [try/except LockError] around the delete in the loop body: what
    the iteration makes of the outcome of [cache_partition_file.delete()]. *)
Definition count_failure (attempts : Z) (r : Outcome unit * World)
    : Outcome LoopStep * World :=
  match r with
  | (Ok _, w') => (Ok (Continue attempts), w')
  | (Raise LockError, w') =>
      let attempts := attempts + 1 in
      if maximum_prune_attempts w' <? attempts
      then (Raise (RuntimeError "Too many cache prune attempts failed."), w')
      else (Ok (Continue attempts), w')
  | (Raise e, w') => (Raise e, w')
  end.

(** The body of the loop of [Cache.prune], with its test. *)
Definition prune_iteration (self : Cache) (attempts : Z) : Op LoopStep := fun w =>
  if maximum_size self <? get_total_size self w then
    match earliest (get_files self w) with
    | None => (Raise DoesNotExist, w)
    | Some cache_partition_file =>
        count_failure attempts (CachePartitionFile_delete cache_partition_file true w)
    end
  else (Ok Break, w).

(** The loop of [Cache.prune], run for at most [fuel] iterations; [None]
    when the fuel did not suffice. *)
Fixpoint prune_loop (fuel : nat) (self : Cache) (attempts : Z) (w : World)
    : option (Outcome unit * World) :=
  match fuel with
  | O => None
  | S fuel' =>
      match prune_iteration self attempts w with
      | (Ok Break, w') => Some (Ok tt, w')
      | (Ok (Continue attempts'), w') => prune_loop fuel' self attempts' w'
      | (Raise e, w') => Some (Raise e, w')
      end
  end.

(** Iterations that always suffice: every iteration removes a file or
    counts a failed attempt. *)
Definition prune_fuel (attempts : Z) (w : World) : nat :=
  S (length (files w) + Z.to_nat (maximum_prune_attempts w + 1 - attempts)).

(** [Cache.prune]: the loop, started with no failed attempt.  The fuel of
    [prune_fuel] always suffices (lemma [prune_run]), so the last case is
    never taken. *)
Definition prune (self : Cache) : Op unit := fun w =>
  match prune_loop (prune_fuel 0 w) self 0 w with
  | Some r => r
  | None => (Raise (RuntimeError "prune: not reached"), w)
  end.

(** [CachePartition.purge]. *)
Definition CachePartition_purge (self : CachePartition) : Op unit := fun w =>
  for_each (partition_files self w)
    (fun parition_file => CachePartitionFile_delete parition_file true) w.

(** [Cache.purge]. *)
Definition Cache_purge (self : Cache) : Op unit :=
  r <~ attempt (DefinedStorage_get (defined_storage_name self));;
  match r with
  | Raise KeyError => ret tt
  | Raise e => raise e
  | Ok _ => fun w => for_each (cache_partitions self w) CachePartition_purge w
  end.

Definition with_cache_pk (pk : Z) (c : Cache) : Cache :=
  {| cache_pk := Some pk; defined_storage_name := defined_storage_name c;
     maximum_size := maximum_size c |}.

(** [super().save()] of a cache: [defined_storage_name] is unique; a cache
    without key is inserted under the next key, one with a key replaces
    its row. *)
Definition cache_save_record (self : Cache) : Op Cache := fun w =>
  if existsb (fun c => bool_decide (defined_storage_name c = defined_storage_name self)
                       && negb (bool_decide (cache_pk c = cache_pk self))) (caches w)
  then (Raise IntegrityError, w)
  else match cache_pk self with
       | None =>
           let c := with_cache_pk (next_cache_pk w) self in
           (Ok c, tick_cache (set_caches (caches w ++ [c]) w))
       | Some pk =>
           if existsb (fun c => bool_decide (cache_pk c = Some pk)) (caches w)
           then (Ok self, set_caches
                   (map (fun c => if bool_decide (cache_pk c = Some pk) then self else c)
                        (caches w)) w)
           else (Ok self, set_caches (caches w ++ [self]) w)
       end.

(** [Cache.save]; returns the instance as it is after the call. *)
Definition Cache_save (self : Cache) : Op Cache :=
  saved <~ cache_save_record self;;
  prune saved;;;
  ret saved.

(** ** CachePartition *)

(** The [with] block of a caller of [create_file]: it writes [chunks] to
    the stream in turn, then raises [failure] if there is one. *)
Record Caller : Type := {
  chunks : list bytes;
  failure : option Exception
}.

Fixpoint write_chunks (stream : Stream) (l : list bytes) : Op unit :=
  match l with
  | [] => ret tt
  | chunk :: l' => stream_write stream chunk;;; write_chunks stream l'
  end.

Definition caller_block (caller : Caller) (stream : Stream) : Op unit :=
  write_chunks stream (chunks caller);;;
  match failure caller with
  | Some e => raise e
  | None => ret tt
  end.

(** The inner [try/except/else] of [create_file]: the record, the stream
    handed to the caller's block, and the clean up when either fails.
    [storage] is [self.cache.storage]. *)
Definition create_partition_file (self : CachePartition) (fname : string)
    (storage : string) (block : Stream → Op unit) : Op unit :=
  created <~ attempt (files_create self fname);;
  match created with
  | Raise exception =>
      storage_delete storage (get_full_filename self fname);;;
      raise exception
  | Ok partition_file =>
      yielded <~ attempt (stream <~ CachePartitionFile_open partition_file "wb" false;;
                          block stream;;;
                          ret stream);;
      match yielded with
      | Raise exception =>
          CachePartitionFile_delete partition_file false;;;
          raise exception
      | Ok stream =>
          CachePartitionFile_close partition_file (Some stream) false;;;
          update_size partition_file false;;;
          ret tt
      end
  end.

(** The part of [create_file] that runs with the lock held: the body of
    the [try ... finally: lock.release()]. *)
Definition create_file_locked (self : CachePartition) (fname : string)
    (block : Stream → Op unit) : Op unit :=
  cache <~ get_cache (partition_cache self);;
  prune cache;;;
  storage <~ Cache_storage cache;;
  storage_delete storage (get_full_filename self fname);;;
  storage_save storage (get_full_filename self fname) [];;;
  create_partition_file self fname storage block.

(** [CachePartition.create_file]; [block] is the body of the caller's
    [with] statement, run at the [yield]. *)
Definition create_file (self : CachePartition) (fname : string)
    (block : Stream → Op unit) : Op unit :=
  lock_name <~ get_file_lock_name self fname;;
  lock <~ acquire_lock lock_name;;
  try_finally (create_file_locked self fname block) (release lock).

(** [CachePartition.get_file]. *)
Definition get_file (self : CachePartition) (fname : string) : Op CachePartitionFile := fun w =>
  lift_option DoesNotExist (find (same_key (partition_pk self) fname) (files w)) w.

(** [CachePartition.delete]: the purge, then the row and, by [CASCADE],
    the file rows still pointing to it. *)
Definition CachePartition_delete (self : CachePartition) : Op unit :=
  CachePartition_purge self;;;
  fun w =>
    (Ok tt,
     set_partitions
       (List.filter (fun p => negb (bool_decide (partition_pk p = partition_pk self)))
                    (partitions w))
       (set_files
          (List.filter (fun f => negb (bool_decide (file_partition f = partition_pk self)))
                       (files w)) w)).

(** ** A concrete deployment *)

Module Demo.

Definition thumbnails : Cache :=
  {| cache_pk := Some 1; defined_storage_name := "thumbnails"; maximum_size := 1000 |}.

Definition pages : CachePartition :=
  {| partition_pk := 1; partition_cache := 1; partition_name := "pages" |}.

Definition covers : CachePartition :=
  {| partition_pk := 2; partition_cache := 1; partition_name := "covers" |}.

Definition world0 : World :=
  {| caches := [thumbnails];
     partitions := [pages; covers];
     files := [];
     registry := {[ "thumbnails" :=
                    {| dotted_path := "django.core.files.storage.FileSystemStorage";
                       label := "Thumbnails"; name := "thumbnails" |} ]};
     stores := ∅;
     locks := ∅;
     clock := 0;
     next_file_pk := 1;
     next_cache_pk := 2;
     maximum_prune_attempts := 5 |}.

Definition payload (n : nat) : Caller :=
  {| chunks := [repeat Byte.x41 n]; failure := None |}.

(** Runs [m] and continues from the state it leaves, whatever its outcome. *)
Definition after {A} (m : Op A) (w : World) : World := snd (m w).

(** File A of 600 bytes in one partition, then file B of 600 bytes in
    the other. *)
Definition world1 : World :=
  after (create_file pages "a" (caller_block (payload 600))) world0.

Definition world2 : World :=
  after (create_file covers "b" (caller_block (payload 600))) world1.

Definition file_a : CachePartitionFile :=
  {| file_pk := 1; file_partition := 1; datetime := 0; filename := "a";
     file_size := 600 |}.

Definition file_b : CachePartitionFile :=
  {| file_pk := 2; file_partition := 2; datetime := 1; filename := "b";
     file_size := 600 |}.

(** [world2] while another operation holds the lock of file A. *)
Definition world2_busy : World :=
  set_locks {[ "cache_partition-file-1-1-a" ]} world2.

(** [world2] with a backend that fails to delete the object of file A. *)
Definition world2_faulty : World :=
  set_stores
    (<[ "thumbnails" :=
          {| objects := objects (get_backend "thumbnails" world2);
             fault := fun op key =>
               match op with
               | OpDelete => bool_decide (key = "pages-a")
               | _ => false
               end |} ]> (stores world2))
    world2.

(** Two callers that write different bytes under the same name. *)
Definition first_write : Caller :=
  {| chunks := [[Byte.x41; Byte.x41]; [Byte.x41]]; failure := None |}.

Definition second_write : Caller :=
  {| chunks := [[Byte.x42; Byte.x42]]; failure := None |}.


Definition world_x : World :=
  after (create_file pages "x" (caller_block first_write)) world0.

(** [world0] with a backend that cannot tell the size of "pages-z". *)
Definition world0_no_size : World :=
  set_stores
    {[ "thumbnails" :=
         {| objects := ∅;
            fault := fun op key =>
              match op with
              | OpSize => bool_decide (key = "pages-z")
              | _ => false
              end |} ]}
    world0.

Definition thumbnails_700 : Cache :=
  {| cache_pk := Some 1; defined_storage_name := "thumbnails"; maximum_size := 700 |}.

Definition orphaned : Cache :=
  {| cache_pk := Some 1; defined_storage_name := "gone"; maximum_size := 1000 |}.

(** A second cache with its own partition and a file older than all
    others, beside the two files of "thumbnails". *)
Definition archive : Cache :=
  {| cache_pk := Some 2; defined_storage_name := "archive"; maximum_size := 5000 |}.

Definition docs : CachePartition :=
  {| partition_pk := 3; partition_cache := 2; partition_name := "docs" |}.

Definition file_c : CachePartitionFile :=
  {| file_pk := 3; file_partition := 3; datetime := -5; filename := "c";
     file_size := 900 |}.

Definition world_two : World :=
  set_caches [thumbnails; archive]
    (set_partitions [pages; covers; docs]
       (set_files (files world2 ++ [file_c]) world2)).

(** Two partitions of one cache whose names make combined keys collide. *)
Definition part_a : CachePartition :=
  {| partition_pk := 1; partition_cache := 1; partition_name := "a" |}.

Definition part_ab : CachePartition :=
  {| partition_pk := 2; partition_cache := 1; partition_name := "a-b" |}.

Definition world_ab : World := set_partitions [part_a; part_ab] world0.

End Demo.

(** * Definitions used by the statements and the proofs *)

(** The part of the state that name and storage resolution reads. *)
Definition same_config (w1 w2 : World) : Prop :=
  caches w1 = caches w2 ∧ partitions w1 = partitions w2 ∧ registry w1 = registry w2.

Definition eval {A} (m : Op A) (w : World) : Outcome A := fst (m w).

(** A query leaves the state alone and depends on the configuration only. *)
Definition query {A} (m : Op A) : Prop :=
  (∀ w, snd (m w) = w) ∧ (∀ w1 w2, same_config w1 w2 → eval m w1 = eval m w2).

Definition without (pk : Z) (l : list CachePartitionFile) : list CachePartitionFile :=
  List.filter (fun f => negb (has_pk pk f)) l.

(** The state after backend [s] dropped the object at [key]. *)
Definition drop_object (s key : string) (w : World) : World :=
  set_stores (<[s := set_objects (delete key (objects (get_backend s w)))
                                 (get_backend s w)]> (stores w)) w.

(** The state after a file was deleted: object dropped, then row removed. *)
Definition deleted (self : CachePartitionFile) (s key : string) (w : World) : World :=
  set_files (without (file_pk self) (files w)) (drop_object s key w).

(** [w'] is [w] after some files were deleted: rows and objects only go
    away, and nothing else changes. *)
Definition evicted (w w' : World) : Prop :=
  (∃ fs st, w' = set_files fs (set_stores st w)) ∧
  sublist (files w') (files w) ∧
  (∀ s, fault (get_backend s w') = fault (get_backend s w)) ∧
  (∀ s k, objects (get_backend s w') !! k = None ∨
          objects (get_backend s w') !! k = objects (get_backend s w) !! k).

(** The state after backend [s] stored [content] at [key]. *)
Definition put_object (s key : string) (content : bytes) (w : World) : World :=
  set_stores (<[s := set_objects (<[key := content]> (objects (get_backend s w)))
                                 (get_backend s w)]> (stores w)) w.

(** The row [self.files.create(filename=fname)] makes in state [w]. *)
Definition new_file (self : CachePartition) (fname : string) (w : World)
    : CachePartitionFile :=
  {| file_pk := next_file_pk w; file_partition := partition_pk self;
     datetime := clock w; filename := fname; file_size := 0 |}.

(** The state after row [f] was inserted. *)
Definition created (f : CachePartitionFile) (w : World) : World :=
  tick_file (set_files (files w ++ [f]) w).

(** The state after the row with the key of [f] was updated to [f]. *)
Definition resized (f : CachePartitionFile) (w : World) : World :=
  set_files (map (fun g => if has_pk (file_pk f) g then f else g) (files w)) w.

(** The bytes readable at the combined key of [fname] in partition [self],
    in the storage of its cache. *)
Definition stored_bytes (self : CachePartition) (fname : string) (w : World)
    : option bytes :=
  match eval (cache <~ get_cache (partition_cache self);; Cache_storage cache) w with
  | Ok s => objects (get_backend s w) !! get_full_filename self fname
  | Raise _ => None
  end.

(** Whether partition [self] has a record for [fname]. *)
Definition has_record (self : CachePartition) (fname : string) (w : World) : bool :=
  existsb (same_key (partition_pk self) fname) (files w).

(** [w'] is [w] after backend operations: only stored objects differ. *)
Definition stored (w w' : World) : Prop :=
  (∃ st, w' = set_stores st w) ∧
  ∀ s, fault (get_backend s w') = fault (get_backend s w).

Definition locked (n : string) (w : World) : World :=
  set_locks ({[n]} ∪ locks w) w.

Definition unlocked (n : string) (w : World) : World :=
  set_locks (locks w ∖ {[n]}) w.

(** The state once the empty object is in place at [key]. *)
Definition placeholder (s key : string) (w : World) : World :=
  put_object s key [] (drop_object s key w).

(** The call took the lock [n] of the file, found its cache and ran
    [prune], which ended with [rp] in state [wp]. *)
Definition entered (self : CachePartition) (fname : string) (w : World)
    (n : string) (cache : Cache) (rp : Outcome unit) (wp : World) : Prop :=
  eval (get_file_lock_name self fname) w = Ok n ∧ (n ∉ locks w) ∧
  eval (get_cache (partition_cache self)) w = Ok cache ∧
  prune cache (locked n w) = (rp, wp).

(** The call went on to put the empty object in place in storage [s]. *)
Definition placed (self : CachePartition) (fname : string) (w : World)
    (n : string) (cache : Cache) (wp : World) (s : string) : Prop :=
  entered self fname w n cache (Ok tt) wp ∧
  eval (Cache_storage cache) w = Ok s ∧
  fault (get_backend s w) OpDelete (get_full_filename self fname) = false ∧
  fault (get_backend s w) OpSave (get_full_filename self fname) = false.

(** The call went on to create the record and hand the stream to the
    caller's block, which left state [wx]. *)
Definition yielded (self : CachePartition) (fname : string) (caller : Caller)
    (w : World) (n : string) (cache : Cache) (wp : World) (s : string)
    (wx : World) : Prop :=
  placed self fname w n cache wp s ∧
  has_record self fname wp = false ∧
  fault (get_backend s w) OpOpen (get_full_filename self fname) = false ∧
  stored (created (new_file self fname w)
            (placeholder s (get_full_filename self fname) wp)) wx ∧
  objects (get_backend s wx) !! get_full_filename self fname
    = Some (concat (chunks caller)).

(** Every way a call of [create_file] can go, with its outcome and the
    state it leaves. *)
Inductive create_file_path (self : CachePartition) (fname : string)
    (caller : Caller) (w : World) : Outcome unit → World → Prop :=
| path_no_lock_name e :
    eval (get_file_lock_name self fname) w = Raise e →
    create_file_path self fname caller w (Raise e) w
| path_lock_held n :
    eval (get_file_lock_name self fname) w = Ok n → n ∈ locks w →
    create_file_path self fname caller w (Raise LockError) w
| path_prune_raises n cache e wp :
    entered self fname w n cache (Raise e) wp →
    create_file_path self fname caller w (Raise e) (unlocked n wp)
| path_no_storage n cache wp e :
    entered self fname w n cache (Ok tt) wp →
    eval (Cache_storage cache) w = Raise e →
    create_file_path self fname caller w (Raise e) (unlocked n wp)
| path_delete_fails n cache wp s :
    entered self fname w n cache (Ok tt) wp →
    eval (Cache_storage cache) w = Ok s →
    fault (get_backend s w) OpDelete (get_full_filename self fname) = true →
    create_file_path self fname caller w (Raise BackendIOError) (unlocked n wp)
| path_save_fails n cache wp s :
    entered self fname w n cache (Ok tt) wp →
    eval (Cache_storage cache) w = Ok s →
    fault (get_backend s w) OpDelete (get_full_filename self fname) = false →
    fault (get_backend s w) OpSave (get_full_filename self fname) = true →
    create_file_path self fname caller w (Raise BackendIOError)
      (unlocked n (drop_object s (get_full_filename self fname) wp))
| path_duplicate n cache wp s :
    placed self fname w n cache wp s →
    has_record self fname wp = true →
    create_file_path self fname caller w (Raise IntegrityError)
      (unlocked n (drop_object s (get_full_filename self fname)
                     (placeholder s (get_full_filename self fname) wp)))
| path_open_fails n cache wp s :
    placed self fname w n cache wp s →
    has_record self fname wp = false →
    fault (get_backend s w) OpOpen (get_full_filename self fname) = true →
    create_file_path self fname caller w (Raise BackendIOError)
      (unlocked n (deleted (new_file self fname w) s (get_full_filename self fname)
                     (created (new_file self fname w)
                        (placeholder s (get_full_filename self fname) wp))))
| path_block_raises n cache wp s wx e :
    yielded self fname caller w n cache wp s wx →
    failure caller = Some e →
    create_file_path self fname caller w (Raise e)
      (unlocked n (deleted (new_file self fname w) s (get_full_filename self fname) wx))
| path_size_fails n cache wp s wx :
    yielded self fname caller w n cache wp s wx →
    failure caller = None →
    fault (get_backend s w) OpSize (get_full_filename self fname) = true →
    create_file_path self fname caller w (Raise BackendIOError) (unlocked n wx)
| path_returns n cache wp s wx :
    yielded self fname caller w n cache wp s wx →
    failure caller = None →
    fault (get_backend s w) OpSize (get_full_filename self fname) = false →
    create_file_path self fname caller w (Ok tt)
      (unlocked n (resized (with_file_size (Z.of_nat (length (concat (chunks caller))))
                                           (new_file self fname w)) wx)).

(** The constraints the database keeps on a file table [l] whose key
    sequence stands at [next]: primary keys are unique and were handed out
    by the sequence, and [unique_together = ('partition', 'filename')]
    holds. *)
Definition rows_ok (l : list CachePartitionFile) (next : Z) : Prop :=
  NoDup (map file_pk l) ∧
  (∀ f, In f l → file_pk f < next) ∧
  NoDup (map (fun f => (file_partition f, filename f)) l).

Definition db_ok (w : World) : Prop := rows_ok (files w) (next_file_pk w).

(** An operation that does not look at the locks: it runs the same with
    any set of held locks, and leaves that set as it is. *)
Definition oblivious {A} (m : Op A) : Prop :=
  ∀ L w, m (set_locks L w) = (fst (m w), set_locks L (snd (m w))).

(** [w'] stores what [w] stores, except maybe at [key] of storage [s]. *)
Definition frame (s key : string) (w w' : World) : Prop :=
  ∀ s' k, s' ≠ s ∨ k ≠ key →
          objects (get_backend s' w') !! k = objects (get_backend s' w) !! k.

(** Run in a state with the configuration of [w0], the operation keeps
    that configuration, stores nothing and drops nothing except at [key]
    of storage [s], and returns values that satisfy [Q]. *)
Definition keeps (w0 : World) (s key : string) {A} (m : Op A) (Q : A → Prop) : Prop :=
  ∀ w, same_config w w0 → ∀ r w', m w = (r, w') →
       same_config w' w0 ∧ frame s key w w' ∧ ∀ a, r = Ok a → Q a.

(** Whether a string is free of the separator of the name formats. *)
Fixpoint dashless (s : string) : bool :=
  match s with
  | EmptyString => true
  | String c s' => negb (Ascii.eqb c "-"%char) && dashless s'
  end.

(** * Verification *)

(** ** Queries: operations that only read the configuration *)

Lemma same_config_refl w : same_config w w.
Proof. by repeat split. Qed.

Lemma same_config_trans w1 w2 w3 :
  same_config w1 w2 → same_config w2 w3 → same_config w1 w3.
Proof. intros (? & ? & ?) (? & ? & ?). repeat split; congruence. Qed.

Lemma query_run {A} (m : Op A) w : query m → m w = (eval m w, w).
Proof.
  intros [Hs _]. specialize (Hs w). unfold eval.
  destruct (m w) as [r w']. simpl in *. by subst.
Qed.

Lemma query_move {A} (m : Op A) w1 w2 :
  query m → same_config w1 w2 → eval m w1 = eval m w2.
Proof. intros [_ H]. apply H. Qed.

Lemma query_ret {A} (a : A) : query (ret a).
Proof. by split. Qed.

Lemma query_raise {A} e : query (@raise A e).
Proof. by split. Qed.

Lemma query_bind {A B} (m : Op A) (k : A → Op B) :
  query m → (∀ a, query (k a)) → query (bind m k).
Proof.
  intros Hm Hk. split.
  - intros w. unfold bind. rewrite (query_run m w Hm).
    destruct (eval m w); [apply Hk | done].
  - intros w1 w2 Hc. unfold eval, bind.
    rewrite (query_run m w1 Hm), (query_run m w2 Hm), (query_move m w1 w2 Hm Hc).
    destruct (eval m w2); [by apply Hk | done].
Qed.

Lemma query_attempt {A} (m : Op A) : query m → query (attempt m).
Proof.
  intros Hm. split.
  - intros w. unfold attempt. by rewrite (query_run m w Hm).
  - intros w1 w2 Hc. unfold eval, attempt.
    rewrite (query_run m w1 Hm), (query_run m w2 Hm). simpl.
    by rewrite (query_move m w1 w2 Hm Hc).
Qed.

Lemma query_lift {A} (e : Exception) (f : World → option A) :
  (∀ w1 w2, same_config w1 w2 → f w1 = f w2) →
  query (fun w => lift_option e (f w) w).
Proof.
  intros Hf. split.
  - intros w. by destruct (f w).
  - intros w1 w2 Hc. unfold eval. rewrite (Hf w1 w2 Hc). by destruct (f w2).
Qed.

Lemma query_get_partition pk : query (get_partition pk).
Proof. apply query_lift. intros w1 w2 (_ & H & _). by rewrite H. Qed.

Lemma query_get_cache pk : query (get_cache pk).
Proof. apply query_lift. intros w1 w2 (H & _ & _). by rewrite H. Qed.

Lemma query_DefinedStorage_get n : query (DefinedStorage_get n).
Proof. apply query_lift. intros w1 w2 (_ & _ & H). by rewrite H. Qed.

Lemma query_get_storage_instance d : query (get_storage_instance d).
Proof.
  unfold get_storage_instance.
  destruct (decide _); [apply query_raise | apply query_ret].
Qed.

Lemma query_get_defined_storage self : query (get_defined_storage self).
Proof.
  apply query_bind; [apply query_attempt, query_DefinedStorage_get |].
  intros [d|[]]; first [apply query_ret | apply query_raise].
Qed.

Lemma query_Cache_storage self : query (Cache_storage self).
Proof.
  apply query_bind; [apply query_get_defined_storage |].
  intros d. apply query_get_storage_instance.
Qed.

Lemma query_get_file_lock_name self fname : query (get_file_lock_name self fname).
Proof. apply query_bind; [apply query_get_cache | intros; apply query_ret]. Qed.

Lemma query_file_lock_name self : query (file_lock_name self).
Proof.
  apply query_bind; [apply query_get_partition |].
  intros. apply query_get_file_lock_name.
Qed.

Lemma query_full_filename self : query (full_filename self).
Proof. apply query_bind; [apply query_get_partition | intros; apply query_ret]. Qed.

Lemma query_file_storage self : query (file_storage self).
Proof.
  apply query_bind; [apply query_get_partition |]. intros p.
  apply query_bind; [apply query_get_cache |]. intros c.
  apply query_Cache_storage.
Qed.

Create HintDb queries.
#[export] Hint Resolve query_get_partition query_get_cache query_Cache_storage
  query_get_file_lock_name query_file_lock_name query_full_filename
  query_file_storage query_get_defined_storage query_DefinedStorage_get : queries.

(** Running a query inside a sequence. *)
Lemma bind_query {A B} (m : Op A) (k : A → Op B) w :
  query m →
  bind m k w = match eval m w with Ok a => k a w | Raise e => (Raise e, w) end.
Proof. intros Hm. unfold bind. by rewrite (query_run m w Hm). Qed.

(** ** The delete path of a file *)

Lemma storage_delete_run s key w :
  storage_delete s key w =
    if fault (get_backend s w) OpDelete key then (Raise BackendIOError, w)
    else (Ok tt, drop_object s key w).
Proof. reflexivity. Qed.

Lemma release_acquire n (X : gset string) : n ∉ X → ({[n]} ∪ X) ∖ {[n]} = X.
Proof.
  intros Hn. apply set_eq. intros x.
  rewrite elem_of_difference, elem_of_union, elem_of_singleton. split.
  - by intros [[->|Hx] Hne].
  - intros Hx. split; [by right|]. by intros ->.
Qed.

Lemma delete_unlocked self w :
  CachePartitionFile_delete self false w =
    match eval (file_storage self) w with
    | Raise e => (Raise e, w)
    | Ok s =>
        match eval (full_filename self) w with
        | Raise e => (Raise e, w)
        | Ok key =>
            if fault (get_backend s w) OpDelete key then (Raise BackendIOError, w)
            else (Ok tt, deleted self s key w)
        end
    end.
Proof.
  unfold CachePartitionFile_delete, locked_class_method.
  rewrite bind_query by auto with queries.
  destruct (eval (file_storage self) w) as [s|e]; [|done].
  rewrite bind_query by auto with queries.
  destruct (eval (full_filename self) w) as [key|e]; [|done].
  unfold bind. rewrite storage_delete_run.
  by destruct (fault _ _ _).
Qed.

(** The unlocked delete does not look at the locks. *)
Lemma delete_unlocked_locks self L w :
  CachePartitionFile_delete self false (set_locks L w) =
    (fst (CachePartitionFile_delete self false w),
     set_locks L (snd (CachePartitionFile_delete self false w))).
Proof.
  rewrite !delete_unlocked.
  assert (Hc : same_config (set_locks L w) w) by by repeat split.
  rewrite (query_move (file_storage self) _ _ (query_file_storage self) Hc).
  rewrite (query_move (full_filename self) _ _ (query_full_filename self) Hc).
  destruct (eval (file_storage self) w) as [s|e]; [|done].
  destruct (eval (full_filename self) w) as [key|e]; [|done].
  change (get_backend s (set_locks L w)) with (get_backend s w).
  by destruct (fault _ _ _).
Qed.

Lemma delete_unlocked_keeps_locks self w :
  locks (snd (CachePartitionFile_delete self false w)) = locks w.
Proof.
  rewrite delete_unlocked.
  destruct (eval (file_storage self) w) as [s|e]; [|done].
  destruct (eval (full_filename self) w) as [key|e]; [|done].
  by destruct (fault _ _ _).
Qed.

Lemma delete_locked self w :
  CachePartitionFile_delete self true w =
    match eval (file_lock_name self) w with
    | Raise e => (Raise e, w)
    | Ok n =>
        if decide (n ∈ locks w) then (Raise LockError, w)
        else CachePartitionFile_delete self false w
    end.
Proof.
  unfold CachePartitionFile_delete at 1. unfold locked_class_method.
  rewrite bind_query by auto with queries.
  destruct (eval (file_lock_name self) w) as [n|e]; [|done].
  unfold bind at 1. unfold acquire_lock.
  destruct (decide (n ∈ locks w)) as [Hin|Hout]; [done|].
  unfold try_finally.
  pose proof (delete_unlocked_locks self ({[n]} ∪ locks w) w) as Hrun.
  unfold CachePartitionFile_delete, locked_class_method in Hrun.
  rewrite Hrun. clear Hrun.
  pose proof (delete_unlocked_keeps_locks self w) as Hl.
  unfold CachePartitionFile_delete, locked_class_method in Hl |- *.
  destruct ((storage <~ file_storage self;; key <~ full_filename self;;
             storage_delete storage key;;; file_delete_record self) w)
    as [r w'] eqn:E.
  simpl in *. unfold release, set_locks at 1. simpl.
  rewrite release_acquire by done. rewrite <- Hl.
  by destruct w'.
Qed.

(** Everything one call of [delete] can do. *)
Lemma delete_cases self acquire w r w' :
  CachePartitionFile_delete self acquire w = (r, w') →
  (∃ e, r = Raise e ∧ w' = w) ∨
  (r = Ok tt ∧ ∃ s key,
      eval (file_storage self) w = Ok s ∧ eval (full_filename self) w = Ok key ∧
      fault (get_backend s w) OpDelete key = false ∧ w' = deleted self s key w).
Proof.
  assert (Hu : ∀ r w', CachePartitionFile_delete self false w = (r, w') →
    (∃ e, r = Raise e ∧ w' = w) ∨
    (r = Ok tt ∧ ∃ s key,
      eval (file_storage self) w = Ok s ∧ eval (full_filename self) w = Ok key ∧
      fault (get_backend s w) OpDelete key = false ∧ w' = deleted self s key w)).
  { intros r0 w0. rewrite delete_unlocked.
    destruct (eval (file_storage self) w) as [s|e];
      [|intros [= <- <-]; left; eauto].
    destruct (eval (full_filename self) w) as [key|e];
      [|intros [= <- <-]; left; eauto].
    destruct (fault _ _ _) eqn:Hf; intros [= <- <-]; [left; eauto|].
    right. split; [done|]. by exists s, key. }
  destruct acquire; [|apply Hu].
  rewrite delete_locked.
  destruct (eval (file_lock_name self) w) as [n|e];
    [|intros [= <- <-]; left; eauto].
  destruct (decide _); [intros [= <- <-]; left; eauto | apply Hu].
Qed.

(** ** Lists of file rows *)

Lemma without_In pk l g : In g (without pk l) ↔ In g l ∧ file_pk g ≠ pk.
Proof.
  unfold without. rewrite filter_In. unfold has_pk.
  by rewrite negb_true_iff, bool_decide_eq_false.
Qed.

Lemma without_sublist pk l : sublist (without pk l) l.
Proof.
  induction l as [|f l IH]; simpl; [constructor|].
  destruct (negb (has_pk pk f)); by constructor.
Qed.

Lemma without_length pk l : (length (without pk l) ≤ length l)%nat.
Proof. apply sublist_length, without_sublist. Qed.

Lemma without_shorter f l :
  In f l → (length (without (file_pk f) l) < length l)%nat.
Proof.
  induction l as [|g l IH]; simpl; [done|].
  intros [->|Hin].
  - unfold has_pk at 1. rewrite bool_decide_eq_true_2 by done. simpl.
    pose proof (without_length (file_pk f) l). unfold without in *. lia.
  - specialize (IH Hin). unfold without in *.
    destruct (negb (has_pk (file_pk f) g)); simpl; lia.
Qed.

Lemma earliest_In l f : earliest l = Some f → In f l.
Proof.
  revert f. induction l as [|h l IH]; simpl; [done|]. intros f.
  destruct (earliest l) as [g|]; [|intros [= <-]; by left].
  destruct (datetime g <? datetime h); intros [= <-]; [right; by apply IH | by left].
Qed.

Lemma earliest_le l f g : earliest l = Some f → In g l → datetime f ≤ datetime g.
Proof.
  revert f. induction l as [|h l IH]; simpl; [done|]. intros f He Hin.
  destruct (earliest l) as [m|] eqn:Hm.
  - destruct (datetime m <? datetime h) eqn:Hlt; injection He as <-.
    + apply Z.ltb_lt in Hlt. destruct Hin as [<-|Hin]; [lia | by apply IH].
    + apply Z.ltb_ge in Hlt. destruct Hin as [<-|Hin]; [lia|].
      specialize (IH m eq_refl Hin). lia.
  - injection He as <-. destruct Hin as [<-|Hin]; [lia|].
    destruct l; [done | simpl in Hm].
    destruct (earliest l); [destruct (_ <? _)|]; done.
Qed.

Lemma without_cons pk g l :
  without pk (g :: l) = if has_pk pk g then without pk l else g :: without pk l.
Proof. unfold without. simpl. by destruct (has_pk pk g). Qed.

Lemma without_fresh pk l : ¬ In pk (map file_pk l) → without pk l = l.
Proof.
  intros Hn. unfold without. apply forallb_filter_id, forallb_forall.
  intros h Hh. unfold has_pk.
  rewrite negb_true_iff, bool_decide_eq_false. intros Heq.
  apply Hn. rewrite <- Heq. by apply in_map.
Qed.

Lemma sum_sizes_without f l :
  NoDup (map file_pk l) → In f l →
  sum_sizes (without (file_pk f) l) = sum_sizes l - file_size f.
Proof.
  induction l as [|g l IH]; [done|].
  intros Hnd Hin. rewrite without_cons. simpl in Hnd.
  apply NoDup_cons in Hnd as [Hg Hnd]. rewrite list_elem_of_In in Hg.
  destruct Hin as [->|Hin].
  - unfold has_pk at 1. rewrite bool_decide_eq_true_2 by done.
    rewrite without_fresh by done. simpl. lia.
  - unfold has_pk at 1. rewrite bool_decide_eq_false_2.
    + simpl. rewrite IH by done. lia.
    + intros Heq. apply Hg. rewrite Heq. by apply in_map.
Qed.

(** ** Eviction: what deleting files does to the state *)

Lemma evicted_refl w : evicted w w.
Proof.
  split; [|split; [done|split; [done|by right]]].
  exists (files w), (stores w). by destruct w.
Qed.

Lemma evicted_trans w1 w2 w3 : evicted w1 w2 → evicted w2 w3 → evicted w1 w3.
Proof.
  intros ((fs1 & st1 & E1) & S1 & F1 & O1) ((fs2 & st2 & E2) & S2 & F2 & O2).
  split; [|split; [|split]].
  - exists fs2, st2. by rewrite E2, E1.
  - by etrans.
  - intros s. by rewrite F2.
  - intros s k. destruct (O2 s k) as [->| ->]; [by left | apply O1].
Qed.

Lemma get_backend_drop_object s' s key w :
  get_backend s' (drop_object s key w) =
    if decide (s = s')
    then set_objects (delete key (objects (get_backend s w))) (get_backend s w)
    else get_backend s' w.
Proof.
  unfold get_backend, drop_object. simpl.
  destruct (decide (s = s')) as [->|Hne].
  - by rewrite lookup_insert_eq.
  - by rewrite lookup_insert_ne.
Qed.

Lemma evicted_deleted self s key w : evicted w (deleted self s key w).
Proof.
  split; [|split; [|split]].
  - by eexists _, _.
  - apply without_sublist.
  - intros s'. change (get_backend s' (deleted self s key w))
      with (get_backend s' (drop_object s key w)).
    rewrite get_backend_drop_object. by destruct (decide _) as [->|].
  - intros s' k. change (get_backend s' (deleted self s key w))
      with (get_backend s' (drop_object s key w)).
    rewrite get_backend_drop_object. destruct (decide _) as [->|]; [|by right].
    simpl. destruct (decide (key = k)) as [->|Hne].
    + left. apply lookup_delete_eq.
    + right. by apply lookup_delete_ne.
Qed.

Lemma evicted_config w w' : evicted w w' → same_config w' w.
Proof. intros ((fs & st & ->) & _). by repeat split. Qed.

Lemma evicted_locks w w' : evicted w w' → locks w' = locks w.
Proof. by intros ((fs & st & ->) & _). Qed.

Lemma evicted_next_file_pk w w' : evicted w w' → next_file_pk w' = next_file_pk w.
Proof. by intros ((fs & st & ->) & _). Qed.

Lemma evicted_clock w w' : evicted w w' → clock w' = clock w.
Proof. by intros ((fs & st & ->) & _). Qed.

Lemma evicted_In w w' f : evicted w w' → In f (files w') → In f (files w).
Proof.
  intros (_ & Hs & _) Hin. apply list_elem_of_In.
  eapply elem_of_sublist; [|done]. by apply list_elem_of_In.
Qed.

Lemma delete_evicted self acquire w r w' :
  CachePartitionFile_delete self acquire w = (r, w') → evicted w w'.
Proof.
  intros H. apply delete_cases in H as [(e & _ & ->)|(_ & s & key & _ & _ & _ & ->)].
  - apply evicted_refl.
  - apply evicted_deleted.
Qed.

(** ** The eviction loop *)

Lemma prune_victim_Some self w f :
  prune_victim self w = Some f ↔
  maximum_size self < get_total_size self w ∧ earliest (get_files self w) = Some f.
Proof.
  unfold prune_victim. destruct (_ <? _) eqn:Hlt.
  - apply Z.ltb_lt in Hlt. split; [by intros -> | by intros [_ ->]].
  - apply Z.ltb_ge in Hlt. split; [done | lia].
Qed.

(** Everything one iteration of the loop can do. *)
Lemma prune_iteration_cases self attempts w r w' :
  prune_iteration self attempts w = (r, w') →
  (r = Ok Break ∧ w' = w ∧ get_total_size self w ≤ maximum_size self) ∨
  (∃ f s key, prune_victim self w = Some f ∧ r = Ok (Continue attempts) ∧
     CachePartitionFile_delete f true w = (Ok tt, w') ∧ w' = deleted f s key w) ∨
  (∃ f, prune_victim self w = Some f ∧ w' = w ∧
     CachePartitionFile_delete f true w = (Raise LockError, w) ∧
     r = if maximum_prune_attempts w <? attempts + 1
         then Raise (RuntimeError "Too many cache prune attempts failed.")
         else Ok (Continue (attempts + 1))) ∨
  (∃ e, r = Raise e ∧ w' = w ∧ e ≠ LockError ∧
     maximum_size self < get_total_size self w).
Proof.
  unfold prune_iteration. destruct (_ <? _) eqn:Hlt.
  2:{ intros [= <- <-]. left. apply Z.ltb_ge in Hlt. done. }
  apply Z.ltb_lt in Hlt.
  destruct (earliest (get_files self w)) as [f|] eqn:He.
  2:{ intros [= <- <-]. right. right. right. by exists DoesNotExist. }
  assert (Hv : prune_victim self w = Some f) by by apply prune_victim_Some.
  unfold count_failure.
  destruct (CachePartitionFile_delete f true w) as [[[]|e] w1] eqn:Hd.
  - intros [= <- <-]. right. left.
    pose proof Hd as Hd'.
    apply delete_cases in Hd as [(e & ? & _)|(_ & s & key & _ & _ & _ & ->)]; [done|].
    by exists f, s, key.
  - pose proof Hd as Hd'.
    apply delete_cases in Hd as [(e' & ? & ->)|(? & _)]; [|done].
    destruct e; intros Hr.
    1:{ right. right. left. exists f.
        destruct (_ <? _); injection Hr as <- <-; done. }
    all: injection Hr as <- <-; right; right; right; eexists; done.
Qed.

Lemma prune_iteration_evicted self attempts w r w' :
  prune_iteration self attempts w = (r, w') → evicted w w'.
Proof.
  intros Hi. apply prune_iteration_cases in Hi
    as [(_ & -> & _)|[(f & s & key & _ & _ & _ & ->)|[(f & _ & -> & _)|(e & _ & -> & _)]]];
    first [apply evicted_refl | apply evicted_deleted].
Qed.

Lemma prune_loop_evicted fuel self attempts w r w' :
  prune_loop fuel self attempts w = Some (r, w') → evicted w w'.
Proof.
  revert attempts w. induction fuel as [|fuel IH]; [done|]. intros a w. simpl.
  destruct (prune_iteration self a w) as [r1 w1] eqn:Hi.
  apply prune_iteration_evicted in Hi.
  destruct r1 as [[|a']|e].
  - by intros [= <- <-].
  - intros Hloop. eapply evicted_trans; [done | by eapply IH].
  - by intros [= <- <-].
Qed.

(** [prune] returns normally only under the bound. *)
Lemma prune_loop_bound fuel self attempts w w' :
  prune_loop fuel self attempts w = Some (Ok tt, w') →
  get_total_size self w' ≤ maximum_size self.
Proof.
  revert attempts w. induction fuel as [|fuel IH]; [done|]. intros a w. simpl.
  destruct (prune_iteration self a w) as [[[|a']|e] w1] eqn:Hi.
  - apply prune_iteration_cases in Hi
      as [(_ & -> & ?)|[(f & s & key & _ & ? & _)|[(f & _ & _ & _ & ?)|(? & ? & _)]]];
      try done.
    + by intros [= <-].
    + by destruct (_ <? _).
  - apply IH.
  - done.
Qed.

Lemma prune_loop_terminates fuel self attempts w :
  (prune_fuel attempts w ≤ fuel)%nat →
  ∃ r, prune_loop fuel self attempts w = Some r.
Proof.
  revert attempts w. induction fuel as [|fuel IH]; intros a w Hf.
  { unfold prune_fuel in Hf. lia. }
  simpl.
  destruct (prune_iteration self a w) as [[[|a']|e] w1] eqn:Hi; [by eauto| |by eauto].
  apply prune_iteration_cases in Hi
    as [(? & _)|[(f & s & key & Hv & [= ->] & _ & ->)|[(f & _ & -> & _ & Hr)|(? & ? & _)]]];
    try done.
  - apply IH. apply prune_victim_Some in Hv as [_ Hv].
    apply earliest_In in Hv. apply filter_In in Hv as [Hv _].
    pose proof (without_shorter f (files w) Hv).
    unfold prune_fuel in *. simpl. lia.
  - destruct (_ <? _) eqn:Hlt; [done|]. injection Hr as ->.
    apply Z.ltb_ge in Hlt. apply IH. unfold prune_fuel in *. lia.
Qed.

Lemma prune_loop_more fuel fuel' self attempts w r :
  prune_loop fuel self attempts w = Some r → (fuel ≤ fuel')%nat →
  prune_loop fuel' self attempts w = Some r.
Proof.
  revert fuel' attempts w. induction fuel as [|fuel IH]; [done|].
  intros [|fuel'] a w H Hle; [lia|]. simpl in *.
  destruct (prune_iteration self a w) as [[[|a']|e] w1]; try done.
  apply IH; [done | lia].
Qed.

Lemma prune_run self w :
  prune_loop (prune_fuel 0 w) self 0 w = Some (prune self w).
Proof.
  unfold prune.
  destruct (prune_loop_terminates (prune_fuel 0 w) self 0 w) as [r Hr]; [done|].
  by rewrite Hr.
Qed.

Lemma prune_evicted self w r w' : prune self w = (r, w') → evicted w w'.
Proof.
  intros H. pose proof (prune_run self w) as Hr. rewrite H in Hr.
  by eapply prune_loop_evicted.
Qed.

Lemma prune_bound self w w' :
  prune self w = (Ok tt, w') → get_total_size self w' ≤ maximum_size self.
Proof.
  intros H. pose proof (prune_run self w) as Hr. rewrite H in Hr.
  by eapply prune_loop_bound.
Qed.

Lemma filter_swap {A} (p q : A → bool) (l : list A) :
  List.filter p (List.filter q l) = List.filter q (List.filter p l).
Proof.
  induction l as [|a l IH]; simpl; [done|].
  destruct (p a) eqn:Hp, (q a) eqn:Hq; simpl; rewrite ?Hp, ?Hq, ?IH; done.
Qed.

Lemma get_files_deleted self f s key w :
  get_files self (deleted f s key w) = without (file_pk f) (get_files self w).
Proof.
  unfold get_files, deleted, without. simpl.
  change (in_cache self (set_files _ (drop_object s key w))) with (in_cache self w).
  apply filter_swap.
Qed.

Lemma NoDup_get_files self w :
  NoDup (map file_pk (files w)) → NoDup (map file_pk (get_files self w)).
Proof.
  unfold get_files. induction (files w) as [|g l IH]; simpl; [done|].
  intros Hnd. apply NoDup_cons in Hnd as [Hg Hnd].
  destruct (in_cache self w g); simpl; [|by apply IH].
  apply NoDup_cons. split; [|by apply IH].
  rewrite list_elem_of_In in *. intros Hin. apply Hg.
  apply in_map_iff in Hin as (h & Heq & Hh). apply filter_In in Hh as [Hh _].
  rewrite <- Heq. by apply in_map.
Qed.

Lemma prune_locked_out fuel self attempts w f r :
  prune_victim self w = Some f →
  CachePartitionFile_delete f true w = (Raise LockError, w) →
  prune_loop fuel self attempts w = Some r →
  r = (Raise (RuntimeError "Too many cache prune attempts failed."), w).
Proof.
  intros Hv Hd. revert attempts. induction fuel as [|fuel IH]; [done|].
  intros a. simpl. unfold prune_iteration.
  apply prune_victim_Some in Hv as [Hlt Hv]. apply Z.ltb_lt in Hlt.
  rewrite Hlt, Hv, Hd. simpl.
  destruct (maximum_prune_attempts w <? a + 1); [by intros [= <-] | apply IH].
Qed.

Lemma cache_save_record_saved self w saved w1 :
  cache_save_record self w = (Ok saved, w1) →
  In saved (caches w1) ∧ maximum_size saved = maximum_size self ∧
  defined_storage_name saved = defined_storage_name self ∧
  is_Some (cache_pk saved) ∧
  partitions w1 = partitions w ∧ files w1 = files w.
Proof.
  unfold cache_save_record. destruct (existsb _ _); [done|].
  destruct (cache_pk self) as [pk|] eqn:Hpk.
  - destruct (existsb _ (caches w)) eqn:Hex; intros [= <- <-]; simpl;
      rewrite Hpk; (split; [|by eauto 10]).
    + apply existsb_exists in Hex as (c & Hc & Hb).
      apply in_map_iff. exists c. by rewrite Hb.
    + apply in_or_app. right. by left.
  - intros [= <- <-]. simpl. split; [|by eauto 10].
    apply in_or_app. right. by left.
Qed.

Lemma prune_iteration_victim self attempts w f :
  prune_victim self w = Some f →
  prune_iteration self attempts w =
    count_failure attempts (CachePartitionFile_delete f true w).
Proof.
  intros Hv. apply prune_victim_Some in Hv as [Hlt Hv].
  unfold prune_iteration. apply Z.ltb_lt in Hlt. by rewrite Hlt, Hv.
Qed.

Lemma filter_none {A} (p : A → bool) (l : list A) :
  (∀ a, In a l → p a = false) → List.filter p l = [].
Proof.
  induction l as [|a l IH]; simpl; [done|]. intros H.
  rewrite (H a) by by left. apply IH. intros b Hb. apply H. by right.
Qed.

Lemma for_each_cons {A} (x : A) (l : list A) (body : A → Op unit) w :
  for_each (x :: l) body w =
    match body x w with
    | (Ok _, w1) => for_each l body w1
    | (Raise e, w1) => (Raise e, w1)
    end.
Proof. reflexivity. Qed.

Lemma for_each_delete_evicted l w r w' :
  for_each l (fun f => CachePartitionFile_delete f true) w = (r, w') → evicted w w'.
Proof.
  revert w. induction l as [|f l IH]; intros w.
  { intros [= <- <-]. apply evicted_refl. }
  rewrite for_each_cons.
  destruct (CachePartitionFile_delete f true w) as [[[]|e] w1] eqn:Hd;
    apply delete_evicted in Hd.
  - intros Hl. eapply evicted_trans; [done | by eapply IH].
  - by intros [= <- <-].
Qed.

Lemma for_each_delete_gone l w w' g f :
  for_each l (fun f => CachePartitionFile_delete f true) w = (Ok tt, w') →
  In g (files w') → In f l → file_pk g ≠ file_pk f.
Proof.
  revert w. induction l as [|h l IH]; intros w; [done|].
  rewrite for_each_cons.
  destruct (CachePartitionFile_delete h true w) as [[[]|e] w1] eqn:Hd; [|done].
  intros Hl Hg [->|Hf]; [|by eapply IH].
  apply for_each_delete_evicted in Hl.
  apply (evicted_In _ _ _ Hl) in Hg.
  apply delete_cases in Hd as [(e & ? & _)|(_ & s & key & _ & _ & _ & ->)]; [done|].
  simpl in Hg. by apply without_In in Hg as [_ Hg].
Qed.

Lemma partition_files_In p w g :
  In g (partition_files p w) ↔ In g (files w) ∧ file_partition g = partition_pk p.
Proof. unfold partition_files. by rewrite filter_In, bool_decide_eq_true. Qed.

Lemma partition_files_evicted p w w' :
  evicted w w' → partition_files p w = [] → partition_files p w' = [].
Proof.
  intros He Hn. apply filter_none. intros g Hg.
  apply bool_decide_eq_false. intros Heq.
  assert (Hin : In g (partition_files p w)).
  { apply partition_files_In. split; [by eapply evicted_In | done]. }
  by rewrite Hn in Hin.
Qed.

Lemma partition_purge_evicted p w r w' :
  CachePartition_purge p w = (r, w') → evicted w w'.
Proof. apply for_each_delete_evicted. Qed.

Lemma partition_purge_empty p w w' :
  CachePartition_purge p w = (Ok tt, w') → partition_files p w' = [].
Proof.
  intros Hp. apply filter_none. intros g Hg.
  apply bool_decide_eq_false. intros Heq.
  assert (Hin : In g (partition_files p w)).
  { apply partition_files_In. split; [|done].
    eapply evicted_In; [by eapply partition_purge_evicted | done]. }
  by apply (for_each_delete_gone _ _ _ g g Hp).
Qed.

Lemma for_each_purge_evicted ps w r w' :
  for_each ps CachePartition_purge w = (r, w') → evicted w w'.
Proof.
  revert w. induction ps as [|p ps IH]; intros w.
  { intros [= <- <-]. apply evicted_refl. }
  rewrite for_each_cons.
  destruct (CachePartition_purge p w) as [[[]|e] w1] eqn:Hp;
    apply partition_purge_evicted in Hp.
  - intros Hl. eapply evicted_trans; [done | by eapply IH].
  - by intros [= <- <-].
Qed.

Lemma for_each_purge_empty ps w w' p :
  for_each ps CachePartition_purge w = (Ok tt, w') → In p ps →
  partition_files p w' = [].
Proof.
  revert w. induction ps as [|q ps IH]; intros w; [done|].
  rewrite for_each_cons.
  destruct (CachePartition_purge q w) as [[[]|e] w1] eqn:Hp; [|done].
  intros Hl [->|Hin]; [|by eapply IH].
  eapply partition_files_evicted; [by eapply for_each_purge_evicted|].
  by eapply partition_purge_empty.
Qed.

Lemma get_files_purged self w w' :
  evicted w w' →
  (∀ p, In p (cache_partitions self w) → partition_files p w' = []) →
  get_files self w' = [].
Proof.
  intros He Hp. apply filter_none. intros g Hg. unfold in_cache.
  destruct (evicted_config _ _ He) as (_ & -> & _).
  destruct (find _ (partitions w)) as [p|] eqn:Hf; [|done].
  apply bool_decide_eq_false. intros Hc.
  apply find_some in Hf as [Hin Hpk]. apply bool_decide_eq_true in Hpk.
  assert (Hcp : In p (cache_partitions self w)).
  { apply filter_In. split; [done | by apply bool_decide_eq_true]. }
  assert (Hgp : In g (partition_files p w')) by by apply partition_files_In.
  by rewrite (Hp p Hcp) in Hgp.
Qed.

(** ** The create-file protocol, step by step *)

Lemma stored_refl w : stored w w.
Proof. split; [|done]. exists (stores w). by destruct w. Qed.

Lemma stored_trans w1 w2 w3 : stored w1 w2 → stored w2 w3 → stored w1 w3.
Proof.
  intros [(st1 & E1) F1] [(st2 & E2) F2]. split.
  - exists st2. by rewrite E2, E1.
  - intros s. by rewrite F2.
Qed.

Lemma stored_files w w' : stored w w' → files w' = files w.
Proof. by intros [(st & ->) _]. Qed.

Lemma stored_locks w w' : stored w w' → locks w' = locks w.
Proof. by intros [(st & ->) _]. Qed.

Lemma stored_config w w' : stored w w' → same_config w' w.
Proof. intros [(st & ->) _]. by repeat split. Qed.

Lemma stored_next_file_pk w w' : stored w w' → next_file_pk w' = next_file_pk w.
Proof. by intros [(st & ->) _]. Qed.

Lemma get_backend_put_object s' s key content w :
  get_backend s' (put_object s key content w) =
    if decide (s = s')
    then set_objects (<[key := content]> (objects (get_backend s w))) (get_backend s w)
    else get_backend s' w.
Proof.
  unfold get_backend, put_object. simpl.
  destruct (decide (s = s')) as [->|Hne].
  - by rewrite lookup_insert_eq.
  - by rewrite lookup_insert_ne.
Qed.

Lemma stored_put_object s key content w : stored w (put_object s key content w).
Proof.
  split; [by eexists|]. intros s'. rewrite get_backend_put_object.
  by destruct (decide _) as [->|].
Qed.

Lemma stored_drop_object s key w : stored w (drop_object s key w).
Proof.
  split; [by eexists|]. intros s'. rewrite get_backend_drop_object.
  by destruct (decide _) as [->|].
Qed.

Lemma object_put_object s key content w :
  objects (get_backend s (put_object s key content w)) !! key = Some content.
Proof. rewrite get_backend_put_object, decide_True by done. apply lookup_insert_eq. Qed.

Lemma object_drop_object s key w :
  objects (get_backend s (drop_object s key w)) !! key = None.
Proof. rewrite get_backend_drop_object, decide_True by done. apply lookup_delete_eq. Qed.

Lemma storage_save_run s key content w :
  storage_save s key content w =
    if fault (get_backend s w) OpSave key then (Raise BackendIOError, w)
    else (Ok tt, put_object s key content w).
Proof. reflexivity. Qed.

Lemma storage_open_wb_run s key w :
  storage_open s key "wb" w =
    if fault (get_backend s w) OpOpen key then (Raise BackendIOError, w)
    else match objects (get_backend s w) !! key with
         | None => (Raise BackendIOError, w)
         | Some _ =>
             (Ok {| stream_storage := s; stream_name := key; stream_mode := "wb" |},
              put_object s key [] w)
         end.
Proof.
  unfold storage_open, storage_call.
  destruct (fault _ _ _); [done|]. by destruct (_ !! key).
Qed.

Lemma storage_size_run s key w :
  storage_size s key w =
    if fault (get_backend s w) OpSize key then (Raise BackendIOError, w)
    else match objects (get_backend s w) !! key with
         | None => (Raise BackendIOError, w)
         | Some content =>
             (Ok (Z.of_nat (length content)),
              set_stores (<[s := get_backend s w]> (stores w)) w)
         end.
Proof.
  unfold storage_size, storage_call.
  destruct (fault _ _ _); [done|]. by destruct (_ !! key).
Qed.

Lemma stored_touch s w : stored w (set_stores (<[s := get_backend s w]> (stores w)) w).
Proof.
  split; [by eexists|]. intros s'. unfold get_backend at 1. simpl.
  destruct (decide (s = s')) as [->|Hne].
  - by rewrite lookup_insert_eq.
  - by rewrite lookup_insert_ne.
Qed.

Lemma object_touch s s' key w :
  objects (get_backend s' (set_stores (<[s := get_backend s w]> (stores w)) w)) !! key
  = objects (get_backend s' w) !! key.
Proof.
  unfold get_backend at 1. simpl.
  destruct (decide (s = s')) as [->|Hne].
  - by rewrite lookup_insert_eq.
  - by rewrite lookup_insert_ne.
Qed.

Lemma files_create_run self fname w :
  files_create self fname w =
    if has_record self fname w then (Raise IntegrityError, w)
    else (Ok (new_file self fname w), created (new_file self fname w) w).
Proof. reflexivity. Qed.

Lemma stream_write_run s key mode chunk w :
  stream_write {| stream_storage := s; stream_name := key; stream_mode := mode |} chunk w =
    match objects (get_backend s w) !! key with
    | None => (Raise BackendIOError, w)
    | Some old => (Ok tt, put_object s key (old ++ chunk) w)
    end.
Proof. reflexivity. Qed.

Lemma write_chunks_run s key mode l old w :
  objects (get_backend s w) !! key = Some old →
  ∃ w', write_chunks {| stream_storage := s; stream_name := key; stream_mode := mode |} l w
          = (Ok tt, w') ∧
        stored w w' ∧
        objects (get_backend s w') !! key = Some (old ++ concat l).
Proof.
  revert old w. induction l as [|chunk l IH]; intros old w Ho; simpl.
  - exists w. rewrite app_nil_r. eauto using stored_refl.
  - unfold bind. rewrite stream_write_run, Ho.
    destruct (IH (old ++ chunk) (put_object s key (old ++ chunk) w)) as (w' & Hw & Hs & Hobj).
    { apply object_put_object. }
    exists w'. rewrite Hw, Hobj, app_assoc.
    eauto using stored_trans, stored_put_object.
Qed.

Lemma caller_block_run caller s key mode w :
  objects (get_backend s w) !! key = Some [] →
  ∃ w', caller_block caller
          {| stream_storage := s; stream_name := key; stream_mode := mode |} w
          = (match failure caller with Some e => Raise e | None => Ok tt end, w') ∧
        stored w w' ∧
        objects (get_backend s w') !! key = Some (concat (chunks caller)).
Proof.
  intros Ho. destruct (write_chunks_run s key mode (chunks caller) [] w Ho)
    as (w' & Hw & Hs & Hobj).
  exists w'. unfold caller_block, bind. rewrite Hw.
  by destruct (failure caller).
Qed.

(** What a file of partition [self] named [fname] resolves to, in any state
    with the configuration of [w]. *)
Lemma file_queries self fname cache s f w w2 :
  eval (get_partition (partition_pk self)) w = Ok self →
  eval (get_cache (partition_cache self)) w = Ok cache →
  eval (Cache_storage cache) w = Ok s →
  file_partition f = partition_pk self → filename f = fname →
  same_config w2 w →
  eval (file_storage f) w2 = Ok s ∧
  eval (full_filename f) w2 = Ok (get_full_filename self fname) ∧
  eval (file_lock_name f) w2 = eval (get_file_lock_name self fname) w.
Proof.
  intros Hp Hc Hs Hfp Hfn Hcfg.
  rewrite (query_move (file_storage f) w2 w), (query_move (full_filename f) w2 w),
    (query_move (file_lock_name f) w2 w) by auto with queries.
  unfold eval, file_storage, full_filename, file_lock_name.
  rewrite !bind_query by auto with queries. rewrite Hfp, Hp.
  rewrite bind_query by auto with queries. rewrite Hc. unfold eval in Hs.
  rewrite Hs, Hfn. done.
Qed.

Lemma open_wb_run f s key w :
  eval (file_storage f) w = Ok s → eval (full_filename f) w = Ok key →
  CachePartitionFile_open f "wb" false w = storage_open s key "wb" w.
Proof.
  intros Hs Hk. unfold CachePartitionFile_open, locked_class_method.
  rewrite bind_query by auto with queries. rewrite Hs.
  rewrite bind_query by auto with queries. by rewrite Hk.
Qed.

Lemma existsb_has_pk_In f l : In f l → existsb (has_pk (file_pk f)) l = true.
Proof.
  intros Hin. apply existsb_exists. exists f. split; [done|].
  by apply bool_decide_eq_true.
Qed.

Lemma update_size_run f s key content w :
  eval (file_storage f) w = Ok s → eval (full_filename f) w = Ok key →
  objects (get_backend s w) !! key = Some content →
  In f (files w) →
  update_size f false w =
    if fault (get_backend s w) OpSize key then (Raise BackendIOError, w)
    else (Ok (with_file_size (Z.of_nat (length content)) f),
          resized (with_file_size (Z.of_nat (length content)) f)
                  (set_stores (<[s := get_backend s w]> (stores w)) w)).
Proof.
  intros Hs Hk Ho Hin. unfold update_size, locked_class_method.
  rewrite bind_query by auto with queries. rewrite Hs.
  rewrite bind_query by auto with queries. rewrite Hk.
  unfold bind at 1. rewrite storage_size_run, Ho.
  destruct (fault _ _ _); [done|].
  unfold bind, file_save. simpl. by rewrite (existsb_has_pk_In f (files w) Hin).
Qed.

(** Everything the inner [try/except/else] of [create_file] can do, once
    the empty object is in place. *)
Lemma create_partition_file_cases self fname cache s caller w r w' :
  eval (get_partition (partition_pk self)) w = Ok self →
  eval (get_cache (partition_cache self)) w = Ok cache →
  eval (Cache_storage cache) w = Ok s →
  objects (get_backend s w) !! get_full_filename self fname = Some [] →
  fault (get_backend s w) OpDelete (get_full_filename self fname) = false →
  create_partition_file self fname s (caller_block caller) w = (r, w') →
  (has_record self fname w = true ∧ r = Raise IntegrityError ∧
   w' = drop_object s (get_full_filename self fname) w) ∨
  (has_record self fname w = false ∧
   ((fault (get_backend s w) OpOpen (get_full_filename self fname) = true ∧
     r = Raise BackendIOError ∧
     w' = deleted (new_file self fname w) s (get_full_filename self fname)
            (created (new_file self fname w) w)) ∨
    (fault (get_backend s w) OpOpen (get_full_filename self fname) = false ∧
     ∃ wx, stored (created (new_file self fname w) w) wx ∧
       objects (get_backend s wx) !! get_full_filename self fname
         = Some (concat (chunks caller)) ∧
       ((∃ e, failure caller = Some e ∧ r = Raise e ∧
              w' = deleted (new_file self fname w) s (get_full_filename self fname) wx) ∨
        (failure caller = None ∧
         fault (get_backend s w) OpSize (get_full_filename self fname) = true ∧
         r = Raise BackendIOError ∧ w' = wx) ∨
        (failure caller = None ∧
         fault (get_backend s w) OpSize (get_full_filename self fname) = false ∧
         r = Ok tt ∧
         w' = resized (with_file_size (Z.of_nat (length (concat (chunks caller))))
                                      (new_file self fname w)) wx))))).
Proof.
  intros Hp Hc Hs Ho Hfd.
  unfold create_partition_file. unfold bind at 1. unfold attempt at 1.
  rewrite files_create_run.
  set (key := get_full_filename self fname) in *.
  set (pf := new_file self fname w).
  destruct (has_record self fname w) eqn:Hrec.
  { unfold bind. rewrite storage_delete_run, Hfd. intros [= <- <-]. by left. }
  intros Hrun. right. split; [done|]. revert Hrun.
  assert (Hq : ∀ w2, same_config w2 w →
            eval (file_storage pf) w2 = Ok s ∧ eval (full_filename pf) w2 = Ok key).
  { intros w2 Hcfg.
    destruct (file_queries self fname cache s pf w w2) as (? & ? & _); done. }
  set (w1 := created pf w).
  assert (Hc1 : same_config w1 w) by by repeat split.
  destruct (Hq w1 Hc1) as [Hs1 Hk1].
  unfold bind at 1. unfold attempt at 1. unfold bind at 1.
  rewrite (open_wb_run pf s key w1 Hs1 Hk1), storage_open_wb_run.
  change (get_backend s w1) with (get_backend s w). rewrite Ho.
  destruct (fault (get_backend s w) OpOpen key) eqn:Hfo.
  { unfold bind. rewrite delete_unlocked, Hs1, Hk1.
    change (get_backend s w1) with (get_backend s w). rewrite Hfd.
    intros [= <- <-]. by left. }
  intros Hrun. right. split; [done|]. revert Hrun.
  set (stream := {| stream_storage := s; stream_name := key; stream_mode := "wb" |}).
  set (w2 := put_object s key [] w1).
  destruct (caller_block_run caller s key "wb" w2) as (w3 & Hrun & Hst & Hobj).
  { apply object_put_object. }
  fold stream in Hrun. unfold bind at 1. rewrite Hrun.
  assert (Hst13 : stored w1 w3).
  { eapply stored_trans; [apply stored_put_object | done]. }
  assert (Hc3 : same_config w3 w).
  { eapply same_config_trans; [by apply stored_config | done]. }
  destruct (Hq w3 Hc3) as [Hs3 Hk3].
  assert (Hf3 : ∀ op, fault (get_backend s w3) op key = fault (get_backend s w) op key).
  { intros op. destruct Hst13 as [_ Hf]. by rewrite Hf. }
  destruct (failure caller) as [e|] eqn:Hfail.
  { unfold bind. rewrite delete_unlocked, Hs3, Hk3, Hf3, Hfd.
    intros [= <- <-]. exists w3. split; [done|]. split; [done|]. left. by exists e. }
  unfold ret at 1. unfold bind at 1.
  change (CachePartitionFile_close pf (Some stream) false w3) with (Ok (@None Stream), w3).
  cbv beta iota. unfold bind at 1.
  rewrite (update_size_run pf s key (concat (chunks caller)) w3 Hs3 Hk3 Hobj).
  2:{ rewrite (stored_files _ _ Hst13). simpl. apply in_or_app. right. by left. }
  rewrite Hf3. destruct (fault (get_backend s w) OpSize key) eqn:Hfs.
  { intros [= <- <-]. exists w3. split; [done|]. split; [done|]. right. by left. }
  intros [= <- <-].
  exists (set_stores (<[s := get_backend s w3]> (stores w3)) w3).
  split; [eapply stored_trans; [done | apply stored_touch]|].
  split; [by rewrite object_touch|]. right. by right.
Qed.

(** ** The paths through [create_file] *)

Lemma lock_name_cache self fname w n :
  eval (get_file_lock_name self fname) w = Ok n →
  ∃ cache, eval (get_cache (partition_cache self)) w = Ok cache.
Proof.
  unfold eval at 1. unfold get_file_lock_name.
  rewrite bind_query by auto with queries.
  destruct (eval (get_cache (partition_cache self)) w) as [c|]; [eauto | done].
Qed.

Lemma create_file_run self fname block w :
  create_file self fname block w =
    match eval (get_file_lock_name self fname) w with
    | Raise e => (Raise e, w)
    | Ok n =>
        if decide (n ∈ locks w) then (Raise LockError, w)
        else (fst (create_file_locked self fname block (locked n w)),
              unlocked n (snd (create_file_locked self fname block (locked n w))))
    end.
Proof.
  unfold create_file. rewrite bind_query by auto with queries.
  destruct (eval (get_file_lock_name self fname) w) as [n|e]; [|done].
  unfold bind at 1. unfold acquire_lock. destruct (decide _); [done|].
  unfold try_finally. fold (locked n w).
  by destruct (create_file_locked self fname block (locked n w)) as [r wb].
Qed.

Lemma locked_config n w : same_config (locked n w) w.
Proof. by repeat split. Qed.

Lemma stored_placeholder s key w : stored w (placeholder s key w).
Proof.
  eapply stored_trans; [apply stored_drop_object | apply stored_put_object].
Qed.

Lemma evicted_fault w w' s : evicted w w' → fault (get_backend s w') = fault (get_backend s w).
Proof. intros (_ & _ & Hf & _). apply Hf. Qed.

Lemma stored_fault w w' s : stored w w' → fault (get_backend s w') = fault (get_backend s w).
Proof. intros [_ Hf]. apply Hf. Qed.

Lemma create_file_paths self fname caller w r w' :
  eval (get_partition (partition_pk self)) w = Ok self →
  create_file self fname (caller_block caller) w = (r, w') →
  create_file_path self fname caller w r w'.
Proof.
  intros Hp. rewrite create_file_run.
  destruct (eval (get_file_lock_name self fname) w) as [n|e] eqn:Hn.
  2:{ intros [= <- <-]. by apply path_no_lock_name. }
  destruct (decide (n ∈ locks w)) as [Hin|Hout].
  { intros [= <- <-]. by eapply path_lock_held. }
  destruct (lock_name_cache _ _ _ _ Hn) as [cache Hc].
  destruct (create_file_locked self fname (caller_block caller) (locked n w))
    as [rb wb] eqn:Hb.
  simpl. intros [= <- <-]. revert Hb.
  unfold create_file_locked. rewrite bind_query by auto with queries.
  rewrite (query_move _ _ _ (query_get_cache _) (locked_config n w)), Hc.
  unfold bind at 1.
  destruct (prune cache (locked n w)) as [[[]|e] wp] eqn:Hpr.
  2:{ intros [= <- <-]. eapply path_prune_raises. by repeat split. }
  assert (Hent : entered self fname w n cache (Ok tt) wp) by by repeat split.
  pose proof (prune_evicted _ _ _ _ Hpr) as Hev.
  assert (Hcp : same_config wp w).
  { eapply same_config_trans; [by apply evicted_config | apply locked_config]. }
  rewrite bind_query by auto with queries.
  rewrite (query_move _ _ _ (query_Cache_storage cache) Hcp).
  destruct (eval (Cache_storage cache) w) as [s|e] eqn:Hs.
  2:{ intros [= <- <-]. by eapply path_no_storage. }
  assert (Hfp : fault (get_backend s wp) = fault (get_backend s w)).
  { by rewrite (evicted_fault _ _ s Hev). }
  unfold bind at 1. rewrite storage_delete_run, Hfp.
  destruct (fault (get_backend s w) OpDelete (get_full_filename self fname)) eqn:Hfd.
  { intros [= <- <-]. by eapply path_delete_fails. }
  unfold bind at 1. rewrite storage_save_run.
  rewrite (stored_fault _ _ s (stored_drop_object _ _ wp)), Hfp.
  destruct (fault (get_backend s w) OpSave (get_full_filename self fname)) eqn:Hfs.
  { intros [= <- <-]. by eapply path_save_fails. }
  fold (placeholder s (get_full_filename self fname) wp).
  assert (Hpl : placed self fname w n cache wp s) by by repeat split.
  set (ws := placeholder s (get_full_filename self fname) wp).
  assert (Hsts : stored wp ws) by apply stored_placeholder.
  assert (Hcs : same_config ws w).
  { eapply same_config_trans; [by apply stored_config | done]. }
  assert (Hfws : fault (get_backend s ws) = fault (get_backend s w)).
  { by rewrite (stored_fault _ _ s Hsts). }
  assert (Hnew : new_file self fname ws = new_file self fname w).
  { unfold new_file. f_equal.
    - rewrite (stored_next_file_pk _ _ Hsts). by rewrite (evicted_next_file_pk _ _ Hev).
    - destruct Hsts as [(st & ->) _]. simpl. by rewrite (evicted_clock _ _ Hev). }
  assert (Hrec : has_record self fname ws = has_record self fname wp).
  { unfold has_record. by rewrite (stored_files _ _ Hsts). }
  intros Hin.
  apply (create_partition_file_cases self fname cache s caller ws) in Hin.
  - rewrite Hnew, Hrec, !Hfws in Hin.
    destruct Hin as [(Hr & -> & ->)|(Hr & [(Hfo & -> & ->)|(Hfo & wx & Hst & Hobj & Hcase)])].
    + by eapply path_duplicate.
    + by eapply path_open_fails.
    + assert (Hy : yielded self fname caller w n cache wp s wx)
        by (split; [|split; [|split; [|split]]]; done).
      destruct Hcase as [(e & Hf & -> & ->)|[(Hf & Hsz & -> & ->)|(Hf & Hsz & -> & ->)]].
      * by eapply path_block_raises.
      * by eapply path_size_fails.
      * by eapply path_returns.
  - by rewrite (query_move _ _ _ (query_get_partition _) Hcs).
  - by rewrite (query_move _ _ _ (query_get_cache _) Hcs).
  - by rewrite (query_move _ _ _ (query_Cache_storage _) Hcs).
  - apply object_put_object.
  - by rewrite Hfws.
Qed.

(** ** What the paths leave behind *)

Lemma entered_evicted self fname w n cache rp wp :
  entered self fname w n cache rp wp → evicted (locked n w) wp.
Proof. intros (_ & _ & _ & Hpr). by eapply prune_evicted. Qed.

Lemma entered_config self fname w n cache rp wp :
  entered self fname w n cache rp wp → same_config wp w.
Proof.
  intros He. eapply same_config_trans; [|apply locked_config].
  by eapply evicted_config, entered_evicted.
Qed.

Lemma entered_locks self fname w n cache rp wp :
  entered self fname w n cache rp wp → locks (unlocked n wp) = locks w.
Proof.
  intros He. pose proof (evicted_locks _ _ (entered_evicted _ _ _ _ _ _ _ He)) as Hl.
  destruct He as (_ & Hout & _). simpl. rewrite Hl. simpl.
  by apply release_acquire.
Qed.




Lemma stored_bytes_run self fname cache s w w2 :
  eval (get_cache (partition_cache self)) w = Ok cache →
  eval (Cache_storage cache) w = Ok s →
  same_config w2 w →
  stored_bytes self fname w2 = objects (get_backend s w2) !! get_full_filename self fname.
Proof.
  intros Hc Hs Hcfg. unfold stored_bytes.
  assert (Hq : query (cache <~ get_cache (partition_cache self);; Cache_storage cache)).
  { apply query_bind; auto with queries. }
  rewrite (query_move _ w2 w Hq Hcfg). unfold eval at 1.
  rewrite bind_query by auto with queries. rewrite Hc. unfold eval in Hs.
  by rewrite Hs.
Qed.

Lemma stored_bytes_unresolved self fname w w2 :
  (∀ cache s, eval (get_cache (partition_cache self)) w = Ok cache →
              eval (Cache_storage cache) w = Ok s → False) →
  same_config w2 w →
  stored_bytes self fname w2 = None.
Proof.
  intros Hno Hcfg. unfold stored_bytes.
  assert (Hq : query (cache <~ get_cache (partition_cache self);; Cache_storage cache)).
  { apply query_bind; auto with queries. }
  rewrite (query_move _ w2 w Hq Hcfg). unfold eval at 1.
  rewrite bind_query by auto with queries.
  destruct (eval (get_cache (partition_cache self)) w) as [c|] eqn:Hc; [|done].
  destruct (Cache_storage c w) as [[s|] w3] eqn:Hs; [|done].
  exfalso. apply (Hno c s); [done|]. unfold eval. by rewrite Hs.
Qed.


Lemma stored_bytes_locks self fname L w :
  stored_bytes self fname (set_locks L w) = stored_bytes self fname w.
Proof.
  assert (Hcfg : same_config (set_locks L w) w) by by repeat split.
  destruct (eval (get_cache (partition_cache self)) w) as [cache|e] eqn:Hc.
  2:{ rewrite !(stored_bytes_unresolved self fname w);
        [done | congruence | apply same_config_refl | congruence | done]. }
  destruct (eval (Cache_storage cache) w) as [s|e] eqn:Hs.
  2:{ rewrite !(stored_bytes_unresolved self fname w);
        [done | | apply same_config_refl | | done]; intros c s' Hc' Hs'; congruence. }
  rewrite (stored_bytes_run self fname cache s w _ Hc Hs Hcfg).
  by rewrite (stored_bytes_run self fname cache s w w Hc Hs (same_config_refl w)).
Qed.



Lemma yielded_files self fname caller w n cache wp s wx :
  yielded self fname caller w n cache wp s wx →
  files wx = files wp ++ [new_file self fname w] ∧ same_config wx w ∧
  locks wx = locks wp ∧
  (∀ op key, fault (get_backend s wx) op key = fault (get_backend s w) op key).
Proof.
  intros ((Hent & _) & _ & _ & Hst & _).
  pose proof (entered_evicted _ _ _ _ _ _ _ Hent) as Hev.
  pose proof (stored_placeholder s (get_full_filename self fname) wp) as Hsp.
  split; [|split; [|split]].
  - rewrite (stored_files _ _ Hst). reflexivity.
  - eapply same_config_trans; [by apply stored_config|].
    eapply same_config_trans; [|by eapply entered_config].
    destruct Hsp as [(st & ->) _]. by repeat split.
  - rewrite (stored_locks _ _ Hst). reflexivity.
  - intros op key. rewrite (stored_fault _ _ s Hst).
    change (get_backend s (created _ ?x)) with (get_backend s x).
    rewrite (stored_fault _ _ s Hsp), (evicted_fault _ _ s Hev). done.
Qed.

(** ** Size accounting of a new file *)

Lemma in_cache_config self w1 w2 g :
  partitions w1 = partitions w2 → in_cache self w1 g = in_cache self w2 g.
Proof. intros H. unfold in_cache. by rewrite H. Qed.

Lemma sum_sizes_app l1 l2 : sum_sizes (l1 ++ l2) = sum_sizes l1 + sum_sizes l2.
Proof. induction l1 as [|f l1 IH]; simpl; [done|]. rewrite IH. lia. Qed.

Lemma replace_fresh pk f l :
  ¬ In pk (map file_pk l) →
  map (fun g => if has_pk pk g then f else g) l = l.
Proof.
  induction l as [|g l IH]; simpl; [done|]. intros Hn.
  unfold has_pk at 1. rewrite bool_decide_eq_false_2 by (intros Heq; apply Hn; by left).
  rewrite IH; [done|]. intros Hin. apply Hn. by right.
Qed.

(** The total size after the row of a new file, the only row with its key,
    was given its size. *)
Lemma total_size_resized self f size wx l :
  files wx = l ++ [f] → ¬ In (file_pk f) (map file_pk l) → 0 ≤ size →
  get_total_size self (resized (with_file_size size f) wx)
  ≤ sum_sizes (List.filter (in_cache self wx) l) + size.
Proof.
  intros Hf Hfresh Hsize. unfold get_total_size, get_files, resized. simpl.
  rewrite Hf, map_app. rewrite (replace_fresh _ _ l Hfresh).
  assert (Hpk : has_pk (file_pk f) f = true) by by apply bool_decide_eq_true.
  simpl. rewrite Hpk.
  rewrite List.filter_app, sum_sizes_app.
  assert (Hext : ∀ l0, List.filter (in_cache self (set_files
            (l ++ [with_file_size size f]) wx)) l0 = List.filter (in_cache self wx) l0).
  { intros l0. apply List.filter_ext. intros g. by apply in_cache_config. }
  rewrite !Hext. simpl.
  destruct (in_cache self (set_files _ wx) (with_file_size size f)); simpl; lia.
Qed.

Lemma entered_fresh self fname w n cache rp wp :
  entered self fname w n cache rp wp →
  ¬ In (next_file_pk w) (map file_pk (files w)) →
  ¬ In (next_file_pk w) (map file_pk (files wp)).
Proof.
  intros He Hfresh Hin. apply Hfresh.
  apply in_map_iff in Hin as (g & Hpk & Hg). apply in_map_iff. exists g.
  split; [done|].
  apply (evicted_In (locked n w) wp g); [by eapply entered_evicted | done].
Qed.

(** ** Files whose lock is held survive the eviction *)

Lemma delete_locked_ok f w w' :
  CachePartitionFile_delete f true w = (Ok tt, w') →
  ∃ n, eval (file_lock_name f) w = Ok n ∧ n ∉ locks w.
Proof.
  rewrite delete_locked. destruct (eval (file_lock_name f) w) as [n|]; [|done].
  destruct (decide _); [done | eauto].
Qed.

Lemma NoDup_pk_eq l f g :
  NoDup (map file_pk l) → In f l → In g l → file_pk f = file_pk g → f = g.
Proof.
  induction l as [|h l IH]; simpl; [done|].
  intros Hnd Hf Hg Heq. apply NoDup_cons in Hnd as [Hh Hnd].
  rewrite list_elem_of_In in Hh.
  destruct Hf as [->|Hf], Hg as [->|Hg]; [done| | |by apply IH].
  - exfalso. apply Hh. rewrite Heq. by apply in_map.
  - exfalso. apply Hh. rewrite <- Heq. by apply in_map.
Qed.

Lemma NoDup_pk_filter (p : CachePartitionFile → bool) l :
  NoDup (map file_pk l) → NoDup (map file_pk (List.filter p l)).
Proof.
  induction l as [|g l IH]; simpl; [done|].
  intros Hnd. apply NoDup_cons in Hnd as [Hg Hnd].
  destruct (p g); simpl; [|by apply IH].
  apply NoDup_cons. split; [|by apply IH].
  rewrite list_elem_of_In in *. intros Hin. apply Hg.
  apply in_map_iff in Hin as (h & Heq & Hh). apply filter_In in Hh as [Hh _].
  rewrite <- Heq. by apply in_map.
Qed.

Lemma prune_loop_keeps fuel self attempts w r w' g n :
  prune_loop fuel self attempts w = Some (r, w') →
  NoDup (map file_pk (files w)) → In g (files w) →
  eval (file_lock_name g) w = Ok n → n ∈ locks w →
  In g (files w').
Proof.
  revert attempts w. induction fuel as [|fuel IH]; [done|].
  intros a w Hloop Hnd Hg Hn Hin. simpl in Hloop.
  destruct (prune_iteration self a w) as [r1 w1] eqn:Hi.
  apply prune_iteration_cases in Hi
    as [(-> & -> & _)|[(f & s & key & Hv & -> & Hd & ->)|[(f & _ & -> & _ & ->)|(e & -> & -> & _)]]].
  - by injection Hloop as <- <-.
  - apply delete_locked_ok in Hd as (nf & Hnf & Hout).
    apply prune_victim_Some in Hv as [_ Hv]. apply earliest_In in Hv.
    apply filter_In in Hv as [Hf _].
    assert (Hne : file_pk g ≠ file_pk f).
    { intros Heq. assert (g = f) as -> by by eapply NoDup_pk_eq. congruence. }
    eapply IH; [exact Hloop | | | |].
    + by apply NoDup_pk_filter.
    + by apply without_In.
    + rewrite <- Hn. apply query_move; [auto with queries | by repeat split].
    + done.
  - destruct (_ <? _).
    + by injection Hloop as <- <-.
    + by eapply IH.
  - by injection Hloop as <- <-.
Qed.

Lemma prune_keeps self w r w' g n :
  prune self w = (r, w') →
  NoDup (map file_pk (files w)) → In g (files w) →
  eval (file_lock_name g) w = Ok n → n ∈ locks w →
  In g (files w').
Proof.
  intros Hp. pose proof (prune_run self w) as Hr. rewrite Hp in Hr.
  by eapply prune_loop_keeps.
Qed.

(** ** Clean up after a failure *)








(** * The claims *)

Import Demo.

(** C1 (amended): a call of [create_file] that returns normally leaves the
    total size of the cache at most [maximum_size] plus the number of
    bytes the caller wrote: [prune] brought the cache under the bound
    before the new file was admitted. *)
Theorem create_file_size_bound (self : CachePartition) (fname : string)
    (caller : Caller) (w : World) (cache : Cache) (w' : World) :
  eval (get_partition (partition_pk self)) w = Ok self →
  eval (get_cache (partition_cache self)) w = Ok cache →
  ¬ In (next_file_pk w) (map file_pk (files w)) →
  create_file self fname (caller_block caller) w = (Ok tt, w') →
  get_total_size cache w' ≤
    maximum_size cache + Z.of_nat (length (concat (chunks caller))).
Proof.
  intros Hp Hc Hfresh Hrun.
  apply create_file_paths in Hrun; [|done].
  inversion Hrun as [| | | | | | | | | |n c wp s wx Hy Hfail Hsz]; subst.
  destruct (yielded_files _ _ _ _ _ _ _ _ _ Hy) as (Hfiles & Hcfg & _ & _).
  destruct Hy as ((Hent & _) & _).
  pose proof Hent as (_ & _ & Hc' & Hpr).
  assert (c = cache) as -> by congruence.
  change (get_total_size cache (unlocked n ?x)) with (get_total_size cache x).
  etrans.
  { apply (total_size_resized cache _ _ wx (files wp)); [done| |lia].
    by eapply entered_fresh. }
  apply Z.add_le_mono_r.
  pose proof (prune_bound _ _ _ Hpr) as Hb.
  unfold get_total_size, get_files in Hb.
  erewrite List.filter_ext; [exact Hb|].
  intros g. apply in_cache_config.
  destruct Hcfg as (_ & -> & _).
  by destruct (entered_config _ _ _ _ _ _ _ Hent) as (_ & -> & _).
Qed.

Lemma create_file_size_bound_witness :
  create_file covers "b" (caller_block (payload 600)) world1 = (Ok tt, world2) ∧
  get_total_size thumbnails world2 ≤ 1000 + 600.
Proof.
  assert (H : create_file covers "b" (caller_block (payload 600)) world1 = (Ok tt, world2))
    by (vm_compute; reflexivity).
  split; [exact H|].
  apply (create_file_size_bound covers "b" (payload 600) world1 thumbnails world2);
    [vm_compute; reflexivity | vm_compute; reflexivity | | exact H].
  vm_compute. intros [H1|[]]. discriminate H1.
Defined.

(** C1 as stated fails: after file A of 600 bytes, writing file B of 600
    bytes into a cache of [maximum_size] 1000 returns normally, no error
    is raised, and the total size is 1200. *)
Lemma create_file_exceeds_bound :
  create_file pages "a" (caller_block (payload 600)) world0 = (Ok tt, world1) ∧
  create_file covers "b" (caller_block (payload 600)) world1 = (Ok tt, world2) ∧
  maximum_size thumbnails = 1000 ∧
  get_total_size thumbnails world2 = 1200 ∧
  ¬ (get_total_size thumbnails world2 ≤ maximum_size thumbnails).
Proof.
  split; [vm_compute; reflexivity|]. split; [vm_compute; reflexivity|].
  split; [reflexivity|]. split; [vm_compute; reflexivity|].
  vm_compute. intros H. apply H. reflexivity.
Qed.




(** Outside the amended claim: the size refresh runs in the [else:] branch,
    which the [except] clause does not guard.  When it fails, the record
    and the written bytes stay. *)
Example size_refresh_failure_keeps_record :
  eval (create_file pages "z" (caller_block first_write)) world0_no_size
    = Raise BackendIOError ∧
  has_record pages "z"
    (after (create_file pages "z" (caller_block first_write)) world0_no_size) = true ∧
  stored_bytes pages "z"
    (after (create_file pages "z" (caller_block first_write)) world0_no_size)
    = Some [Byte.x41; Byte.x41; Byte.x41].
Proof. repeat split; vm_compute; reflexivity. Qed.



(** C4: when the deletion attempted by an iteration of [Cache.prune] fails
    with a lock error, the iteration changes nothing but the count of
    failed attempts, so the next iteration selects the same file again;
    once the count exceeds the configured maximum the iteration raises
    RuntimeError, which is how such a call of [prune] ends; and no call of
    [prune] returns normally with the total size above the bound. *)
Theorem prune_retries_then_fails (self : Cache) (attempts : Z) (w : World)
    (f : CachePartitionFile) :
  prune_victim self w = Some f →
  eval (CachePartitionFile_delete f true) w = Raise LockError →
  prune_iteration self attempts w =
    (if maximum_prune_attempts w <? attempts + 1
     then Raise (RuntimeError "Too many cache prune attempts failed.")
     else Ok (Continue (attempts + 1)), w) ∧
  prune_victim self (snd (prune_iteration self attempts w)) = Some f ∧
  prune self w = (Raise (RuntimeError "Too many cache prune attempts failed."), w) ∧
  ∀ w0 w', prune self w0 = (Ok tt, w') → get_total_size self w' ≤ maximum_size self.
Proof.
  intros Hv Hd. unfold eval in Hd.
  destruct (CachePartitionFile_delete f true w) as [r w1] eqn:Hdel.
  simpl in Hd. subst r.
  assert (w1 = w) as ->.
  { apply delete_cases in Hdel as [(e & _ & ->)|(? & _)]; done. }
  assert (Hi : prune_iteration self attempts w =
    (if maximum_prune_attempts w <? attempts + 1
     then Raise (RuntimeError "Too many cache prune attempts failed.")
     else Ok (Continue (attempts + 1)), w)).
  { rewrite (prune_iteration_victim self attempts w f Hv), Hdel.
    simpl. by destruct (_ <? _). }
  split; [done|]. split; [by rewrite Hi|]. split.
  - eapply prune_locked_out; [done | done | apply prune_run].
  - intros w0 w'. apply prune_bound.
Qed.

Lemma prune_retries_then_fails_witness :
  prune_iteration thumbnails 5 world2_busy =
    (Raise (RuntimeError "Too many cache prune attempts failed."), world2_busy) ∧
  prune_iteration thumbnails 4 world2_busy = (Ok (Continue 5), world2_busy) ∧
  prune thumbnails world2_busy =
    (Raise (RuntimeError "Too many cache prune attempts failed."), world2_busy).
Proof.
  assert (Hv : prune_victim thumbnails world2_busy = Some file_a)
    by (vm_compute; reflexivity).
  assert (Hd : eval (CachePartitionFile_delete file_a true) world2_busy = Raise LockError)
    by (vm_compute; reflexivity).
  split; [|split].
  - apply (prune_retries_then_fails thumbnails 5 world2_busy file_a Hv Hd).
  - apply (prune_retries_then_fails thumbnails 4 world2_busy file_a Hv Hd).
  - apply (prune_retries_then_fails thumbnails 0 world2_busy file_a Hv Hd).
Defined.

(** C5 (amended): a call of [create_file] that returns normally leaves
    exactly the bytes its caller wrote readable at the combined key, with
    nothing of an earlier object at that key; and while the record of an
    earlier file of that name exists, a further call for the name does
    not return normally. *)
Theorem create_file_overwrite (self : CachePartition) (fname : string)
    (caller : Caller) (w : World) :
  eval (get_partition (partition_pk self)) w = Ok self →
  (∀ w', create_file self fname (caller_block caller) w = (Ok tt, w') →
         stored_bytes self fname w' = Some (concat (chunks caller))) ∧
  (has_record self fname w = true → NoDup (map file_pk (files w)) →
   ∃ e, eval (create_file self fname (caller_block caller)) w = Raise e).
Proof.
  intros Hp. split.
  - intros w' Hrun. apply create_file_paths in Hrun; [|done].
    inversion Hrun as [| | | | | | | | | |n c wp s wx Hy Hfail Hsz]; subst.
    destruct (yielded_files _ _ _ _ _ _ _ _ _ Hy) as (_ & Hcfg & _ & _).
    destruct Hy as (((_ & _ & Hc & _) & Hs & _) & _ & _ & _ & Hobj).
    unfold unlocked. rewrite stored_bytes_locks.
    rewrite (stored_bytes_run self fname c s w); [done..|].
    destruct Hcfg as (? & ? & ?). by repeat split.
  - intros Hrec Hnd. unfold eval.
    destruct (create_file self fname (caller_block caller) w) as [r w'] eqn:Hrun.
    destruct r as [[]|e]; [|by eauto]. exfalso.
    apply create_file_paths in Hrun; [|done].
    inversion Hrun as [| | | | | | | | | |n c wp s wx Hy Hfail Hsz]; subst.
    destruct Hy as ((Hent & Hs & _) & Hnone & _).
    pose proof Hent as (Hn & Hout & Hc & Hpr).
    apply existsb_exists in Hrec as (g & Hg & Hk).
    apply andb_true_iff in Hk as [Hk1 Hk2].
    apply bool_decide_eq_true in Hk1, Hk2.
    destruct (file_queries self fname c s g w (locked n w)) as (_ & _ & Hln);
      [done..|apply locked_config|].
    assert (Hgp : In g (files wp)).
    { eapply (prune_keeps c (locked n w)); [exact Hpr|done|done| |].
      - by rewrite Hln.
      - simpl. set_solver. }
    assert (has_record self fname wp = true).
    { apply existsb_exists. exists g. split; [done|].
      unfold same_key. by rewrite !bool_decide_eq_true_2. }
    congruence.
Qed.

Lemma create_file_overwrite_witness :
  stored_bytes pages "x" world_x = Some [Byte.x41; Byte.x41; Byte.x41] ∧
  ∃ e, eval (create_file pages "x" (caller_block second_write)) world_x = Raise e.
Proof.
  assert (Hp0 : eval (get_partition (partition_pk pages)) world0 = Ok pages)
    by (vm_compute; reflexivity).
  assert (Hpx : eval (get_partition (partition_pk pages)) world_x = Ok pages)
    by (vm_compute; reflexivity).
  split.
  - apply (create_file_overwrite pages "x" first_write world0 Hp0).
    vm_compute. reflexivity.
  - apply (create_file_overwrite pages "x" second_write world_x Hpx).
    + vm_compute. reflexivity.
    + vm_compute. repeat constructor. intros H. inversion H.
Defined.

(** C5 as stated fails: the second of two successive calls for the name
    "x" raises IntegrityError before any stream is handed out, and
    afterwards nothing is readable at the combined key: not the bytes of
    the second caller, and no longer those of the first. *)
Lemma create_file_twice_fails :
  create_file pages "x" (caller_block first_write) world0 = (Ok tt, world_x) ∧
  stored_bytes pages "x" world_x = Some [Byte.x41; Byte.x41; Byte.x41] ∧
  eval (create_file pages "x" (caller_block second_write)) world_x
    = Raise IntegrityError ∧
  stored_bytes pages "x"
    (after (create_file pages "x" (caller_block second_write)) world_x) = None ∧
  stored_bytes pages "x"
    (after (create_file pages "x" (caller_block second_write)) world_x)
    ≠ Some (concat (chunks second_write)).
Proof.
  split; [vm_compute; reflexivity|]. split; [vm_compute; reflexivity|].
  split; [vm_compute; reflexivity|].
  assert (Hnone : stored_bytes pages "x"
            (after (create_file pages "x" (caller_block second_write)) world_x) = None)
    by (vm_compute; reflexivity).
  split; [exact Hnone|]. rewrite Hnone. discriminate.
Qed.

(** C6: [CachePartitionFile.delete] deletes the backend object and only
    then the record.  Whenever the call raises, the state is as before, so
    the record is still there; a backend that fails to delete the object
    makes the call raise that backend error (or the lock error, when the
    lock was to be taken and is held); and a call that returns normally
    has deleted the object at the combined key and removed the record. *)
Theorem delete_backend_before_record (self : CachePartitionFile) (acquire : bool)
    (w : World) (r : Outcome unit) (w' : World) :
  CachePartitionFile_delete self acquire w = (r, w') →
  (∀ e, r = Raise e → w' = w) ∧
  (∀ s key, eval (file_storage self) w = Ok s →
            eval (full_filename self) w = Ok key →
            fault (get_backend s w) OpDelete key = true →
            files w' = files w ∧
            (r = Raise BackendIOError ∨ (acquire = true ∧ r = Raise LockError))) ∧
  (r = Ok tt →
   ∃ s key, eval (file_storage self) w = Ok s ∧
            eval (full_filename self) w = Ok key ∧
            objects (get_backend s w') !! key = None ∧
            files w' = without (file_pk self) (files w)).
Proof.
  intros Hd. split; [|split].
  - intros e ->. apply delete_cases in Hd as [(? & _ & ->)|(? & _)]; done.
  - intros s key Hs Hk Hf.
    assert (Hu : CachePartitionFile_delete self false w = (Raise BackendIOError, w)).
    { by rewrite delete_unlocked, Hs, Hk, Hf. }
    destruct acquire.
    + rewrite delete_locked in Hd.
      destruct (eval (file_lock_name self) w) as [n|e] eqn:Hn.
      * destruct (decide _).
        -- injection Hd as <- <-. eauto.
        -- rewrite Hu in Hd. injection Hd as <- <-. eauto.
      * exfalso. unfold eval, file_lock_name, file_storage, full_filename in *.
        rewrite bind_query in Hn, Hs by auto with queries.
        destruct (eval (get_partition (file_partition self)) w) as [p|]; [|done].
        unfold get_file_lock_name in Hn.
        rewrite bind_query in Hn, Hs by auto with queries.
        by destruct (eval (get_cache (partition_cache p)) w).
    + rewrite Hu in Hd. injection Hd as <- <-. eauto.
  - intros ->. apply delete_cases in Hd as [(? & ? & _)|(_ & s & key & Hs & Hk & _ & ->)];
      [done|].
    exists s, key. repeat split; try done.
    change (get_backend s (deleted self s key w))
      with (get_backend s (drop_object s key w)).
    rewrite get_backend_drop_object, decide_True by done.
    apply lookup_delete_eq.
Qed.

Lemma delete_backend_before_record_witness :
  In file_a (files world2_faulty) ∧
  CachePartitionFile_delete file_a true world2_faulty =
    (Raise BackendIOError, world2_faulty) ∧
  (files world2_faulty = files world2_faulty ∧
   (Raise BackendIOError = Raise BackendIOError :> Outcome unit ∨
    (true = true ∧ Raise BackendIOError = Raise LockError :> Outcome unit))).
Proof.
  assert (H : CachePartitionFile_delete file_a true world2_faulty =
              (Raise BackendIOError, world2_faulty)) by (vm_compute; reflexivity).
  split; [vm_compute; auto|]. split; [exact H|].
  apply (delete_backend_before_record file_a true world2_faulty _ _ H)
    with (s := "thumbnails") (key := "pages-a"); vm_compute; reflexivity.
Defined.

(** C7: once [Cache.save] has persisted the configuration it runs [prune]
    with it, and returns only when [prune] has: a [save] that returns
    normally leaves the saved row in the table with the new
    [maximum_size], and the total size already within that bound. *)
Theorem save_prunes (self : Cache) (w : World) (saved : Cache) (w1 : World) :
  cache_save_record self w = (Ok saved, w1) →
  Cache_save self w =
    (match fst (prune saved w1) with Ok _ => Ok saved | Raise e => Raise e end,
     snd (prune saved w1)) ∧
  maximum_size saved = maximum_size self ∧
  ∀ r w', Cache_save self w = (Ok r, w') →
          r = saved ∧ In saved (caches w') ∧
          get_total_size saved w' ≤ maximum_size self.
Proof.
  intros Hs.
  destruct (cache_save_record_saved _ _ _ _ Hs) as (Hin & Hm & _).
  assert (Hrun : Cache_save self w =
    (match fst (prune saved w1) with Ok _ => Ok saved | Raise e => Raise e end,
     snd (prune saved w1))).
  { unfold Cache_save, bind. rewrite Hs.
    by destruct (prune saved w1) as [[[]|e] w2]. }
  split; [done|]. split; [done|]. intros r w'. rewrite Hrun.
  destruct (prune saved w1) as [[[]|e] w2] eqn:Hp; [|done].
  simpl. intros [= <- <-]. split; [done|].
  destruct (evicted_config _ _ (prune_evicted _ _ _ _ Hp)) as (-> & _).
  rewrite <- Hm. eauto using prune_bound.
Qed.

Lemma save_prunes_witness :
  get_total_size thumbnails world2 = 1200 ∧
  Cache_save thumbnails_700 world2 =
    (Ok thumbnails_700, snd (Cache_save thumbnails_700 world2)) ∧
  get_total_size thumbnails_700 (snd (Cache_save thumbnails_700 world2)) ≤ 700.
Proof.
  assert (Hs : cache_save_record thumbnails_700 world2 =
               (Ok thumbnails_700, snd (cache_save_record thumbnails_700 world2)))
    by (vm_compute; reflexivity).
  assert (Hrun : Cache_save thumbnails_700 world2 =
                 (Ok thumbnails_700, snd (Cache_save thumbnails_700 world2)))
    by (vm_compute; reflexivity).
  split; [vm_compute; reflexivity|]. split; [exact Hrun|].
  destruct (save_prunes thumbnails_700 world2 thumbnails_700 _ Hs) as (_ & _ & Hb).
  apply (Hb _ _ Hrun).
Defined.

(** C8: [Cache.purge] first resolves the storage by name.  When the name
    does not resolve, the call returns with the state exactly as it was:
    no object and no record is touched.  When it resolves, the call purges
    the partitions of the cache in turn, and if it returns normally no file
    of any partition of the cache is left. *)
Theorem purge_resolves_first (self : Cache) (w : World) :
  (registry w !! defined_storage_name self = None →
   Cache_purge self w = (Ok tt, w)) ∧
  (is_Some (registry w !! defined_storage_name self) →
   Cache_purge self w = for_each (cache_partitions self w) CachePartition_purge w ∧
   ∀ w', Cache_purge self w = (Ok tt, w') →
         get_files self w' = [] ∧
         ∀ p, In p (cache_partitions self w) → partition_files p w' = []).
Proof.
  unfold Cache_purge, bind, attempt, DefinedStorage_get. split.
  - by intros ->.
  - intros [d ->]. simpl. split; [done|]. intros w' Hp.
    assert (Hall : ∀ p, In p (cache_partitions self w) → partition_files p w' = []).
    { intros p Hin. by eapply for_each_purge_empty. }
    split; [|done].
    eapply get_files_purged; [by eapply for_each_purge_evicted | done].
Qed.

Lemma purge_resolves_first_witness :
  Cache_purge orphaned world2 = (Ok tt, world2) ∧
  files (snd (Cache_purge thumbnails world2)) = [] ∧
  get_files thumbnails (snd (Cache_purge thumbnails world2)) = [].
Proof.
  destruct (purge_resolves_first orphaned world2) as [Hnone _].
  destruct (purge_resolves_first thumbnails world2) as [_ Hsome].
  split; [apply Hnone; vm_compute; reflexivity|].
  split; [vm_compute; reflexivity|].
  apply Hsome; [vm_compute; eauto | vm_compute; reflexivity].
Defined.

(** C9: [Cache.prune] terminates on every call, within one iteration per
    file, one per tolerated failed attempt, and two more.  An iteration
    that continues either deleted a file, so that the cache has strictly
    fewer files (and its total size went down by the size of that file),
    or counted one more failed attempt without exceeding the configured
    maximum. *)
Theorem prune_terminates (self : Cache) (w : World) :
  (∃ r, prune self w = r ∧
        ∀ fuel, (prune_fuel 0 w ≤ fuel)%nat → prune_loop fuel self 0 w = Some r) ∧
  (∀ attempts w1 attempts' w2,
     prune_iteration self attempts w1 = (Ok (Continue attempts'), w2) →
     (attempts' = attempts ∧
      (length (files w2) < length (files w1))%nat ∧
      (length (get_files self w2) < length (get_files self w1))%nat ∧
      ∃ f, prune_victim self w1 = Some f ∧
           (NoDup (map file_pk (files w1)) →
            get_total_size self w2 = get_total_size self w1 - file_size f)) ∨
     (attempts' = attempts + 1 ∧ w2 = w1 ∧
      attempts' ≤ maximum_prune_attempts w1)).
Proof.
  split.
  - exists (prune self w). split; [done|]. intros fuel Hf.
    eapply prune_loop_more; [apply prune_run | done].
  - intros a w1 a' w2 Hi.
    apply prune_iteration_cases in Hi
      as [(? & _)|[(f & s & key & Hv & [= ->] & _ & ->)|[(f & _ & -> & _ & Hr)|(? & ? & _)]]];
      try done.
    + left. pose proof Hv as Hv'.
      apply prune_victim_Some in Hv as [_ Hv]. apply earliest_In in Hv.
      pose proof Hv as Hf. apply filter_In in Hf as [Hf _].
      split; [done|]. split; [by apply without_shorter|]. split.
      * rewrite get_files_deleted. by apply without_shorter.
      * exists f. split; [done|]. intros Hnd. unfold get_total_size.
        rewrite get_files_deleted. apply sum_sizes_without; [|done].
        by apply NoDup_get_files.
    + right. destruct (_ <? _) eqn:Hlt; [done|]. injection Hr as ->.
      apply Z.ltb_ge in Hlt. done.
Qed.

Lemma prune_terminates_witness :
  prune thumbnails world2 = (Ok tt, deleted file_a "thumbnails" "pages-a" world2) ∧
  prune_loop 3 thumbnails 0 world2_busy = None ∧
  prune_loop (prune_fuel 0 world2_busy) thumbnails 0 world2_busy =
    Some (Raise (RuntimeError "Too many cache prune attempts failed."), world2_busy).
Proof.
  destruct (prune_terminates thumbnails world2_busy) as [(r & Hr & Hfuel) _].
  split; [vm_compute; reflexivity|]. split; [vm_compute; reflexivity|].
  rewrite (Hfuel (prune_fuel 0 world2_busy)) by lia.
  rewrite <- Hr. vm_compute. reflexivity.
Defined.

(** C10: [Cache.get_defined_storage] never raises.  For every cache and
    every state it returns a storage and leaves the state alone: the one
    registered under the cache's [defined_storage_name], or, when the name
    does not resolve, a placeholder labelled 'Unknown'; so [Cache.label]
    is always defined. *)
Theorem get_defined_storage_never_raises (self : Cache) (w : World) :
  ∃ d, get_defined_storage self w = (Ok d, w) ∧
       Cache_label self w = (Ok (label d), w) ∧
       d = match registry w !! defined_storage_name self with
           | Some registered => registered
           | None => {| dotted_path := ""; label := "Unknown"; name := "unknown" |}
           end.
Proof.
  unfold Cache_label, get_defined_storage, bind, attempt, DefinedStorage_get.
  destruct (registry w !! defined_storage_name self) as [d|]; simpl; eauto.
Qed.

(** * Further properties *)

(** ** Taking the lock is transparent *)

Lemma oblivious_locks {A} (m : Op A) w : oblivious m → locks (snd (m w)) = locks w.
Proof.
  intros Hm. specialize (Hm (locks w) w).
  replace (set_locks (locks w) w) with w in Hm by by destruct w.
  destruct (m w) as [r w1]. simpl in *. injection Hm as Hm. by rewrite Hm.
Qed.

Lemma oblivious_ret {A} (a : A) : oblivious (ret a).
Proof. by intros L w. Qed.

Lemma oblivious_raise {A} e : oblivious (@raise A e).
Proof. by intros L w. Qed.

Lemma oblivious_bind {A B} (m : Op A) (k : A → Op B) :
  oblivious m → (∀ a, oblivious (k a)) → oblivious (bind m k).
Proof.
  intros Hm Hk L w. unfold bind. rewrite (Hm L w).
  destruct (m w) as [[a|e] w1]; simpl; [apply Hk | done].
Qed.

Lemma oblivious_query {A} (m : Op A) : query m → oblivious m.
Proof.
  intros Hq L w. rewrite (query_run m _ Hq), (query_run m w Hq). simpl.
  f_equal. apply (query_move m); [done | by repeat split].
Qed.

Lemma oblivious_storage_call {A} s op key (f : Backend → Outcome (A * Backend)) :
  oblivious (storage_call s op key f).
Proof.
  intros L w. unfold storage_call.
  change (get_backend s (set_locks L w)) with (get_backend s w).
  destruct (fault _ _ _); [done|]. by destruct (f (get_backend s w)) as [[a b]|e].
Qed.

Lemma oblivious_file_save f : oblivious (file_save f).
Proof.
  intros L w. unfold file_save. simpl.
  destruct (existsb (has_pk _) _); [done|]. by destruct (existsb _ _).
Qed.

Lemma oblivious_file_delete_record f : oblivious (file_delete_record f).
Proof. by intros L w. Qed.

(** A method under [locked_class_method], when its lock is free, does what
    the method does without the lock; when the lock is held it raises
    LockError and changes nothing. *)
Lemma locked_class_method_run {A} (lock_name : Op string) (method : Op A) w n :
  query lock_name → oblivious method → eval lock_name w = Ok n →
  locked_class_method lock_name method true w =
    if decide (n ∈ locks w) then (Raise LockError, w)
    else locked_class_method lock_name method false w.
Proof.
  intros Hq Hm Hn. unfold locked_class_method.
  rewrite bind_query, Hn by done. unfold bind, acquire_lock.
  destruct (decide _) as [Hin|Hout]; [done|].
  unfold try_finally. rewrite (Hm ({[n]} ∪ locks w) w).
  pose proof (oblivious_locks method w Hm) as Hl.
  destruct (method w) as [r w1]. simpl in *. unfold release, set_locks at 1. simpl.
  rewrite release_acquire by done. rewrite <- Hl. by destruct w1.
Qed.

Lemma oblivious_delete_method self :
  oblivious (storage <~ file_storage self;; key <~ full_filename self;;
             storage_delete storage key;;; file_delete_record self).
Proof.
  apply oblivious_bind; [apply oblivious_query; auto with queries|]. intros s.
  apply oblivious_bind; [apply oblivious_query; auto with queries|]. intros key.
  apply oblivious_bind; [apply oblivious_storage_call|]. intros _.
  apply oblivious_file_delete_record.
Qed.

Lemma oblivious_exists_method self :
  oblivious (storage <~ file_storage self;; key <~ full_filename self;;
             storage_exists storage key).
Proof.
  apply oblivious_bind; [apply oblivious_query; auto with queries|]. intros s.
  apply oblivious_bind; [apply oblivious_query; auto with queries|]. intros key.
  apply oblivious_storage_call.
Qed.

Lemma oblivious_open_method self mode :
  oblivious (storage <~ file_storage self;; key <~ full_filename self;;
             storage_open storage key mode).
Proof.
  apply oblivious_bind; [apply oblivious_query; auto with queries|]. intros s.
  apply oblivious_bind; [apply oblivious_query; auto with queries|]. intros key.
  apply oblivious_storage_call.
Qed.

Lemma oblivious_update_size_method self :
  oblivious (storage <~ file_storage self;; key <~ full_filename self;;
             size <~ storage_size storage key;;
             file_save (with_file_size size self);;;
             ret (with_file_size size self)).
Proof.
  apply oblivious_bind; [apply oblivious_query; auto with queries|]. intros s.
  apply oblivious_bind; [apply oblivious_query; auto with queries|]. intros key.
  apply oblivious_bind; [apply oblivious_storage_call|]. intros size.
  apply oblivious_bind; [apply oblivious_file_save|]. intros _.
  apply oblivious_ret.
Qed.

(** X1: the methods of a file that run under its lock ([close], [delete],
    [exists], [open], [update_size]) raise LockError and change nothing
    when the lock is held; when it is free each has the outcome and the
    final state, locks included, of its [_acquire_lock=False] variant. *)
Theorem locked_methods_transparent (self : CachePartitionFile) (n : string)
    (w : World) :
  eval (file_lock_name self) w = Ok n →
  (n ∈ locks w →
   CachePartitionFile_delete self true w = (Raise LockError, w) ∧
   CachePartitionFile_exists self true w = (Raise LockError, w) ∧
   (∀ mode, CachePartitionFile_open self mode true w = (Raise LockError, w)) ∧
   update_size self true w = (Raise LockError, w) ∧
   (∀ held, CachePartitionFile_close self held true w = (Raise LockError, w))) ∧
  (n ∉ locks w →
   CachePartitionFile_delete self true w = CachePartitionFile_delete self false w ∧
   CachePartitionFile_exists self true w = CachePartitionFile_exists self false w ∧
   (∀ mode, CachePartitionFile_open self mode true w
            = CachePartitionFile_open self mode false w) ∧
   update_size self true w = update_size self false w ∧
   (∀ held, CachePartitionFile_close self held true w
            = CachePartitionFile_close self held false w)).
Proof.
  intros Hn.
  assert (Hq : query (file_lock_name self)) by auto with queries.
  pose proof (locked_class_method_run (file_lock_name self) _ w n Hq
                (oblivious_delete_method self) Hn) as Hd.
  pose proof (locked_class_method_run (file_lock_name self) _ w n Hq
                (oblivious_exists_method self) Hn) as He.
  pose proof (fun mode => locked_class_method_run (file_lock_name self) _ w n Hq
                (oblivious_open_method self mode) Hn) as Ho.
  pose proof (locked_class_method_run (file_lock_name self) _ w n Hq
                (oblivious_update_size_method self) Hn) as Hu.
  pose proof (locked_class_method_run (file_lock_name self) (ret (@None Stream)) w n Hq
                (oblivious_ret _) Hn) as Hc.
  unfold CachePartitionFile_delete, CachePartitionFile_exists, CachePartitionFile_open,
    update_size, CachePartitionFile_close.
  split; intros Hl.
  - rewrite decide_True in Hd by done. rewrite decide_True in He by done.
    rewrite decide_True in Hu by done. rewrite decide_True in Hc by done.
    repeat split; try done. intros mode. specialize (Ho mode).
    by rewrite decide_True in Ho.
  - rewrite decide_False in Hd by done. rewrite decide_False in He by done.
    rewrite decide_False in Hu by done. rewrite decide_False in Hc by done.
    repeat split; try done. intros mode. specialize (Ho mode).
    by rewrite decide_False in Ho.
Qed.

Lemma locked_methods_transparent_witness :
  CachePartitionFile_delete file_a true world2_busy = (Raise LockError, world2_busy) ∧
  update_size file_a true world2 = update_size file_a false world2.
Proof.
  split.
  - apply (locked_methods_transparent file_a "cache_partition-file-1-1-a" world2_busy);
      [vm_compute; reflexivity | vm_compute; set_solver].
  - apply (locked_methods_transparent file_a "cache_partition-file-1-1-a" world2);
      [vm_compute; reflexivity | vm_compute; set_solver].
Defined.

(** ** Locks, records and lookups around [create_file] *)

Lemma path_locks self fname caller w r w' :
  create_file_path self fname caller w r w' → locks w' = locks w.
Proof.
  intros Hpath.
  destruct Hpath as
    [e He | n He Hin | n cache e wp Hent | n cache wp e Hent Hs
    | n cache wp s Hent Hs Hfd | n cache wp s Hent Hs Hfd Hfs
    | n cache wp s [Hent _] Hdup | n cache wp s [Hent _] Hnew Hfo
    | n cache wp s wx e Hy Hfail | n cache wp s wx Hy Hfail Hfs
    | n cache wp s wx Hy Hfail Hfs ];
    try done;
    try (change (locks (unlocked n wp) = locks w); by eapply entered_locks).
  all: destruct (yielded_files _ _ _ _ _ _ _ _ _ Hy) as (_ & _ & Hlocks & _);
    destruct Hy as ((Hent & _) & _);
    simpl; rewrite Hlocks; by eapply entered_locks.
Qed.

Lemma create_file_returns self fname caller w w' :
  eval (get_partition (partition_pk self)) w = Ok self →
  create_file self fname (caller_block caller) w = (Ok tt, w') →
  ∃ n cache wp s wx,
    yielded self fname caller w n cache wp s wx ∧
    w' = unlocked n (resized (with_file_size
                                (Z.of_nat (length (concat (chunks caller))))
                                (new_file self fname w)) wx).
Proof.
  intros Hp Hrun. apply create_file_paths in Hrun; [|done].
  inversion Hrun as [| | | | | | | | | |n c wp s wx Hy Hfail Hsz]; subst.
  by exists n, c, wp, s, wx.
Qed.

Lemma find_none_existsb {A} (p : A → bool) (l : list A) :
  existsb p l = false → find p l = None.
Proof.
  induction l as [|a l IH]; simpl; [done|].
  destruct (p a); simpl; [done | apply IH].
Qed.


(** X2: [create_file] called while the lock of the file is held raises
    LockError without running the caller's block and without changing
    anything; and whatever the outcome of a call, the set of held locks is
    afterwards what it was before: the lock it took is released on every
    exit path, and no other lock is touched. *)
Theorem create_file_lock_discipline (self : CachePartition) (fname : string)
    (caller : Caller) (w : World) :
  eval (get_partition (partition_pk self)) w = Ok self →
  (∀ n block, eval (get_file_lock_name self fname) w = Ok n → n ∈ locks w →
              create_file self fname block w = (Raise LockError, w)) ∧
  (∀ r w', create_file self fname (caller_block caller) w = (r, w') →
           locks w' = locks w).
Proof.
  intros Hp. split.
  - intros n block Hn Hin. rewrite create_file_run, Hn. by rewrite decide_True.
  - intros r w' Hrun. apply create_file_paths in Hrun; [|done].
    by eapply path_locks.
Qed.

Lemma create_file_lock_discipline_witness :
  create_file pages "a" (caller_block (payload 3)) world2_busy
    = (Raise LockError, world2_busy) ∧
  locks (after (create_file pages "c" (caller_block (payload 3))) world2_busy)
    = locks world2_busy.
Proof.
  assert (Hp : eval (get_partition (partition_pk pages)) world2_busy = Ok pages)
    by (vm_compute; reflexivity).
  destruct (create_file_lock_discipline pages "a" (payload 3) world2_busy Hp)
    as [Hheld _].
  destruct (create_file_lock_discipline pages "c" (payload 3) world2_busy Hp)
    as [_ Hlocks].
  split.
  - apply (Hheld "cache_partition-file-1-1-a");
      [vm_compute; reflexivity | vm_compute; set_solver].
  - apply (Hlocks (eval (create_file pages "c" (caller_block (payload 3))) world2_busy)).
    unfold after, eval. by destruct (create_file _ _ _ _).
Defined.



(** ** The constraints of the file table are kept *)

Lemma NoDup_map_sublist {A B} (f : A → B) (l' l : list A) :
  sublist l' l → NoDup (map f l) → NoDup (map f l').
Proof.
  intros Hs. induction Hs as [|a l1 l2 Hs IH|a l1 l2 Hs IH]; simpl; [done| |].
  - intros Hnd. apply NoDup_cons in Hnd as [Ha Hnd]. apply NoDup_cons.
    split; [|by apply IH]. rewrite list_elem_of_In in *. intros Hin. apply Ha.
    apply in_map_iff in Hin as (b & Hb & Hbin). apply in_map_iff. exists b.
    split; [done|]. apply list_elem_of_In.
    eapply elem_of_sublist; [|done]. by apply list_elem_of_In.
  - intros Hnd. apply NoDup_cons in Hnd as [_ Hnd]. by apply IH.
Qed.

Lemma rows_ok_sublist l' l next : sublist l' l → rows_ok l next → rows_ok l' next.
Proof.
  intros Hs (Hpk & Hlt & Hkey). split; [|split].
  - by eapply NoDup_map_sublist.
  - intros f Hf. apply Hlt. apply list_elem_of_In.
    eapply elem_of_sublist; [|done]. by apply list_elem_of_In.
  - by eapply NoDup_map_sublist.
Qed.

Lemma NoDup_map_snoc {A B} (f : A → B) (l : list A) (a : A) :
  NoDup (map f l) → ¬ In (f a) (map f l) → NoDup (map f (l ++ [a])).
Proof.
  intros Hnd Ha. rewrite map_app. simpl. apply NoDup_app. split; [done|]. split.
  - intros b Hb Hb'. apply list_elem_of_In in Hb. apply list_elem_of_In in Hb'.
    destruct Hb' as [<-|[]]. done.
  - apply NoDup_singleton.
Qed.

Lemma rows_ok_snoc l next partition fname f :
  rows_ok l next → existsb (same_key partition fname) l = false →
  file_pk f = next → file_partition f = partition → filename f = fname →
  rows_ok (l ++ [f]) (next + 1).
Proof.
  intros (Hpk & Hlt & Hkey) Hnone Hf Hp Hn. split; [|split].
  - apply NoDup_map_snoc; [done|]. intros Hin.
    apply in_map_iff in Hin as (g & Hg & Hgin). specialize (Hlt g Hgin). lia.
  - intros g Hg. apply in_app_or in Hg as [Hg|[<-|[]]]; [|lia].
    specialize (Hlt g Hg). lia.
  - apply NoDup_map_snoc; [done|]. intros Hin.
    apply in_map_iff in Hin as (g & Hg & Hgin). injection Hg as Hg1 Hg2.
    assert (existsb (same_key partition fname) l = true); [|congruence].
    apply existsb_exists. exists g. split; [done|]. unfold same_key.
    rewrite !bool_decide_eq_true_2; [done|congruence|congruence].
Qed.

Lemma rows_ok_resized l next f size :
  rows_ok (l ++ [f]) next →
  rows_ok (map (fun g => if has_pk (file_pk f) g then with_file_size size f else g)
               (l ++ [f])) next.
Proof.
  intros (Hpk & Hlt & Hkey).
  assert (Hfresh : ¬ In (file_pk f) (map file_pk l)).
  { rewrite map_app in Hpk. apply NoDup_app in Hpk as (_ & Hd & _).
    intros Hin. apply (Hd (file_pk f)); [by apply list_elem_of_In|].
    simpl. apply list_elem_of_In. by left. }
  rewrite map_app, (replace_fresh _ _ l Hfresh). simpl.
  unfold has_pk. rewrite bool_decide_eq_true_2 by done.
  split; [|split].
  - by rewrite map_app in *.
  - intros g Hg. apply in_app_or in Hg as [Hg|[<-|[]]].
    + apply Hlt. apply in_or_app. by left.
    + apply (Hlt f). apply in_or_app. right. by left.
  - by rewrite map_app in *.
Qed.

Lemma db_ok_evicted w w' : evicted w w' → db_ok w → db_ok w'.
Proof.
  intros Hev Hok. unfold db_ok. rewrite (evicted_next_file_pk _ _ Hev).
  destruct Hev as (_ & Hs & _). by eapply rows_ok_sublist.
Qed.

Lemma cache_purge_evicted self w r w' : Cache_purge self w = (r, w') → evicted w w'.
Proof.
  unfold Cache_purge, bind, attempt, DefinedStorage_get.
  destruct (registry w !! defined_storage_name self) as [d|]; simpl.
  - apply for_each_purge_evicted.
  - intros [= <- <-]. apply evicted_refl.
Qed.

Lemma yielded_rows self fname caller w n cache wp s wx :
  yielded self fname caller w n cache wp s wx → db_ok w →
  rows_ok (files wx) (next_file_pk wx) ∧
  files wx = files wp ++ [new_file self fname w] ∧
  next_file_pk wx = next_file_pk w + 1.
Proof.
  intros Hy Hok.
  destruct (yielded_files _ _ _ _ _ _ _ _ _ Hy) as (Hfiles & _).
  destruct Hy as ((Hent & _) & Hnew & _ & Hst & _).
  pose proof (entered_evicted _ _ _ _ _ _ _ Hent) as Hev.
  assert (Hnext : next_file_pk wx = next_file_pk w + 1).
  { rewrite (stored_next_file_pk _ _ Hst). simpl.
    by rewrite (evicted_next_file_pk _ _ Hev). }
  split; [|done]. rewrite Hfiles, Hnext.
  apply (rows_ok_snoc _ _ (partition_pk self) fname); try done.
  pose proof (db_ok_evicted _ _ Hev Hok) as Hokp. unfold db_ok in Hokp.
  by rewrite (evicted_next_file_pk _ _ Hev) in Hokp.
Qed.

Lemma path_db_ok self fname caller w r w' :
  create_file_path self fname caller w r w' → db_ok w → db_ok w'.
Proof.
  intros Hpath Hok.
  destruct Hpath as
    [e He | n He Hin | n cache e wp Hent | n cache wp e Hent Hs
    | n cache wp s Hent Hs Hfd | n cache wp s Hent Hs Hfd Hfs
    | n cache wp s [Hent _] Hdup | n cache wp s [Hent Hpl] Hnew Hfo
    | n cache wp s wx e Hy Hfail | n cache wp s wx Hy Hfail Hfs
    | n cache wp s wx Hy Hfail Hfs ];
    try done;
    try (change (db_ok wp); eapply db_ok_evicted;
         [by eapply entered_evicted | exact Hok]).
  - pose proof (entered_evicted _ _ _ _ _ _ _ Hent) as Hev.
    pose proof (db_ok_evicted _ _ Hev Hok) as Hokp. unfold db_ok in *.
    change (rows_ok (without (next_file_pk w) (files wp ++ [new_file self fname w]))
              (next_file_pk wp + 1)).
    eapply rows_ok_sublist; [apply without_sublist|].
    apply (rows_ok_snoc _ _ (partition_pk self) fname); try done.
    simpl. by rewrite (evicted_next_file_pk _ _ Hev).
  - destruct (yielded_rows _ _ _ _ _ _ _ _ _ Hy Hok) as (Hrows & _).
    unfold db_ok.
    change (rows_ok (without (next_file_pk w) (files wx)) (next_file_pk wx)).
    eapply rows_ok_sublist; [apply without_sublist | done].
  - by destruct (yielded_rows _ _ _ _ _ _ _ _ _ Hy Hok) as (Hrows & _).
  - destruct (yielded_rows _ _ _ _ _ _ _ _ _ Hy Hok) as (Hrows & Hfiles & _).
    unfold db_ok.
    change (rows_ok (map (fun g => if has_pk (file_pk (new_file self fname w)) g
                          then with_file_size
                                 (Z.of_nat (length (concat (chunks caller))))
                                 (new_file self fname w)
                          else g) (files wx)) (next_file_pk wx)).
    rewrite Hfiles in *. by apply rows_ok_resized.
Qed.

(** X4: the constraints of the file table (unique primary keys below the
    next key of the sequence, and [unique_together] on partition and
    filename) are kept by every operation, whatever its outcome:
    [CachePartitionFile.delete], [Cache.prune], [CachePartition.purge],
    [Cache.purge] and [CachePartition.create_file]. *)
Theorem operations_keep_db_ok (w : World) :
  db_ok w →
  (∀ f acquire r w', CachePartitionFile_delete f acquire w = (r, w') → db_ok w') ∧
  (∀ cache r w', prune cache w = (r, w') → db_ok w') ∧
  (∀ partition r w', CachePartition_purge partition w = (r, w') → db_ok w') ∧
  (∀ cache r w', Cache_purge cache w = (r, w') → db_ok w') ∧
  (∀ self fname caller r w',
     eval (get_partition (partition_pk self)) w = Ok self →
     create_file self fname (caller_block caller) w = (r, w') → db_ok w').
Proof.
  intros Hok. split; [|split; [|split; [|split]]].
  - intros f acquire r w' H. eapply db_ok_evicted; [by eapply delete_evicted | done].
  - intros cache r w' H. eapply db_ok_evicted; [by eapply prune_evicted | done].
  - intros p r w' H. eapply db_ok_evicted; [by eapply partition_purge_evicted | done].
  - intros cache r w' H. eapply db_ok_evicted; [by eapply cache_purge_evicted | done].
  - intros self fname caller r w' Hp H. apply create_file_paths in H; [|done].
    by eapply path_db_ok.
Qed.

Lemma operations_keep_db_ok_witness :
  db_ok world0 ∧ db_ok world1 ∧ db_ok world2.
Proof.
  assert (H0 : db_ok world0).
  { repeat split; simpl; try constructor. intros f []. }
  assert (H1 : db_ok world1).
  { destruct (operations_keep_db_ok world0 H0) as (_ & _ & _ & _ & Hc).
    apply (Hc pages "a" (payload 600) (Ok tt)); vm_compute; reflexivity. }
  assert (H2 : db_ok world2).
  { destruct (operations_keep_db_ok world1 H1) as (_ & _ & _ & _ & Hc).
    apply (Hc covers "b" (payload 600) (Ok tt)); vm_compute; reflexivity. }
  done.
Defined.

(** ** After a delete *)

Lemma get_partition_found pk w p :
  eval (get_partition pk) w = Ok p → partition_pk p = pk ∧ In p (partitions w).
Proof.
  unfold eval, get_partition.
  destruct (find _ (partitions w)) as [q|] eqn:Hf; [|done].
  simpl. intros [= ->]. apply find_some in Hf as [Hin Hpk].
  by apply bool_decide_eq_true in Hpk.
Qed.

Lemma NoDup_key_eq l f g :
  NoDup (map (fun f => (file_partition f, filename f)) l) → In f l → In g l →
  file_partition f = file_partition g → filename f = filename g → f = g.
Proof.
  induction l as [|h l IH]; simpl; [done|].
  intros Hnd Hf Hg Hp Hn. apply NoDup_cons in Hnd as [Hh Hnd].
  rewrite list_elem_of_In in Hh.
  destruct Hf as [->|Hf], Hg as [->|Hg]; [done| | |by apply IH].
  - exfalso. apply Hh. rewrite Hp, Hn.
    by apply (in_map (fun f => (file_partition f, filename f))).
  - exfalso. apply Hh. rewrite <- Hp, <- Hn.
    by apply (in_map (fun f => (file_partition f, filename f))).
Qed.

Lemma exists_unlocked_run self s key w :
  eval (file_storage self) w = Ok s → eval (full_filename self) w = Ok key →
  CachePartitionFile_exists self false w = storage_exists s key w.
Proof.
  intros Hs Hk. unfold CachePartitionFile_exists, locked_class_method.
  rewrite bind_query by auto with queries. rewrite Hs.
  rewrite bind_query by auto with queries. by rewrite Hk.
Qed.

(** X5: after [CachePartitionFile.delete] returned normally, [get_file] of
    the partition raises DoesNotExist for the file's name, and [exists] on
    the deleted instance answers False (or raises the error of a backend
    that fails to answer). *)
Theorem delete_then_lookup (self : CachePartitionFile) (acquire : bool)
    (partition : CachePartition) (w w' : World) :
  db_ok w → In self (files w) →
  eval (get_partition (file_partition self)) w = Ok partition →
  CachePartitionFile_delete self acquire w = (Ok tt, w') →
  get_file partition (filename self) w' = (Raise DoesNotExist, w') ∧
  ∃ s key, eval (file_storage self) w = Ok s ∧ eval (full_filename self) w = Ok key ∧
    eval (CachePartitionFile_exists self acquire) w' =
      if fault (get_backend s w) OpExists key then Raise BackendIOError else Ok false.
Proof.
  intros (_ & _ & Hkeys) Hin Hp Hd.
  pose proof Hd as Hd'.
  apply delete_cases in Hd as [(e & ? & _)|(_ & s & key & Hs & Hk & _ & ->)]; [done|].
  destruct (get_partition_found _ _ _ Hp) as [Hpk _].
  split.
  - unfold get_file. rewrite find_none_existsb; [done|].
    apply not_true_is_false. intros Hex. simpl in Hex.
    apply existsb_exists in Hex as (g & Hg & Hsame).
    apply without_In in Hg as [Hg Hne].
    apply andb_true_iff in Hsame as [H1 H2].
    apply bool_decide_eq_true in H1, H2.
    apply Hne. f_equal. apply (NoDup_key_eq (files w)); try done; congruence.
  - exists s, key. split; [done|]. split; [done|].
    set (w' := deleted self s key w).
    assert (Hcfg : same_config w' w) by by repeat split.
    assert (Hs' : eval (file_storage self) w' = Ok s).
    { by rewrite (query_move _ _ _ (query_file_storage self) Hcfg). }
    assert (Hk' : eval (full_filename self) w' = Ok key).
    { by rewrite (query_move _ _ _ (query_full_filename self) Hcfg). }
    assert (Hu : eval (CachePartitionFile_exists self false) w' =
      if fault (get_backend s w) OpExists key then Raise BackendIOError else Ok false).
    { unfold eval. rewrite (exists_unlocked_run self s key w' Hs' Hk').
      unfold storage_exists, storage_call.
      rewrite (evicted_fault w w' s (evicted_deleted self s key w)).
      destruct (fault _ _ _); [done|]. simpl.
      change (get_backend s w') with (get_backend s (drop_object s key w)).
      by rewrite object_drop_object. }
    destruct acquire; [|done].
    apply delete_locked_ok in Hd' as (n & Hn & Hout).
    assert (Hn' : eval (file_lock_name self) w' = Ok n).
    { by rewrite (query_move _ _ _ (query_file_lock_name self) Hcfg). }
    unfold eval at 1. unfold CachePartitionFile_exists.
    rewrite (locked_class_method_run _ _ w' n (query_file_lock_name self)
               (oblivious_exists_method self) Hn').
    rewrite decide_False by done. exact Hu.
Qed.

Lemma delete_then_lookup_witness :
  get_file pages "a" (after (CachePartitionFile_delete file_a true) world2)
    = (Raise DoesNotExist, after (CachePartitionFile_delete file_a true) world2) ∧
  eval (CachePartitionFile_exists file_a true)
       (after (CachePartitionFile_delete file_a true) world2) = Ok false.
Proof.
  assert (Hok : db_ok world2).
  { split; [|split].
    - apply (bool_decide_unpack (NoDup (map file_pk (files world2)))).
      vm_compute. exact I.
    - vm_compute. intros f [<-|[<-|[]]]; reflexivity.
    - apply (bool_decide_unpack
               (NoDup (map (fun f => (file_partition f, filename f)) (files world2)))).
      vm_compute. exact I. }
  destruct (delete_then_lookup file_a true pages world2
              (after (CachePartitionFile_delete file_a true) world2) Hok)
    as (Hmiss & s & key & Hs & Hk & Hex);
    [vm_compute; auto | vm_compute; reflexivity | vm_compute; reflexivity |].
  split; [exact Hmiss|].
  rewrite Hex.
  assert (s = "thumbnails") as -> by (vm_compute in Hs; congruence).
  assert (key = "pages-a") as -> by (vm_compute in Hk; congruence).
  vm_compute. reflexivity.
Defined.

(** ** Purging and deleting a partition *)

Lemma for_each_delete_spares l w r w' g :
  for_each l (fun f => CachePartitionFile_delete f true) w = (r, w') →
  In g (files w) → (∀ f, In f l → file_pk f ≠ file_pk g) → In g (files w').
Proof.
  revert w. induction l as [|h l IH]; intros w.
  { by intros [= <- <-]. }
  rewrite for_each_cons.
  destruct (CachePartitionFile_delete h true w) as [[[]|e] w1] eqn:Hd.
  - intros Hl Hg Hne.
    apply delete_cases in Hd as [(e & ? & _)|(_ & s & key & _ & _ & _ & ->)]; [done|].
    eapply IH; [exact Hl | | intros f Hf; apply Hne; by right].
    apply without_In. split; [done|]. intros Heq. apply (Hne h); [by left | done].
  - intros [= <- <-] Hg _.
    apply delete_cases in Hd as [(e' & _ & ->)|(? & _)]; done.
Qed.

Lemma for_each_delete_keeps l w0 w r w' g n :
  evicted w0 w → NoDup (map file_pk (files w0)) →
  (∀ f, In f l → In f (files w0)) → In g (files w0) → In g (files w) →
  eval (file_lock_name g) w0 = Ok n → n ∈ locks w0 →
  for_each l (fun f => CachePartitionFile_delete f true) w = (r, w') →
  In g (files w').
Proof.
  intros Hev Hnd Hl Hg0 Hg Hn Hin. revert w Hev Hg.
  induction l as [|h l IH]; intros w Hev Hg.
  { by intros [= <- <-]. }
  rewrite for_each_cons.
  destruct (CachePartitionFile_delete h true w) as [[[]|e] w1] eqn:Hd.
  - intros Hrest. pose proof (delete_locked_ok _ _ _ Hd) as (nh & Hnh & Hout).
    pose proof (delete_evicted _ _ _ _ _ Hd) as Hev1.
    apply delete_cases in Hd as [(e & ? & _)|(_ & s & key & _ & _ & _ & ->)]; [done|].
    eapply IH; [intros f Hf; apply Hl; by right | | | exact Hrest].
    + by eapply evicted_trans.
    + apply without_In. split; [done|]. intros Heq.
      assert (g = h) as ->.
      { apply (NoDup_pk_eq (files w0)); try done. apply Hl. by left. }
      rewrite (query_move _ w w0 (query_file_lock_name h) (evicted_config _ _ Hev)) in Hnh.
      rewrite (evicted_locks _ _ Hev) in Hout. congruence.
  - intros [= <- <-].
    apply delete_cases in Hd as [(e' & _ & ->)|(? & _)]; done.
Qed.

Lemma for_each_delete_objects l w w' f s key :
  for_each l (fun f => CachePartitionFile_delete f true) w = (Ok tt, w') →
  In f l → eval (file_storage f) w = Ok s → eval (full_filename f) w = Ok key →
  objects (get_backend s w') !! key = None.
Proof.
  revert w. induction l as [|h l IH]; intros w; [done|].
  rewrite for_each_cons.
  destruct (CachePartitionFile_delete h true w) as [[[]|e] w1] eqn:Hd; [|done].
  intros Hrest Hin Hs Hk.
  apply delete_cases in Hd as [(e & ? & _)|(_ & sh & kh & Hsh & Hkh & _ & ->)]; [done|].
  destruct Hin as [->|Hin].
  - assert (sh = s) as -> by congruence. assert (kh = key) as -> by congruence.
    destruct (for_each_delete_evicted _ _ _ _ Hrest) as (_ & _ & _ & Ho).
    destruct (Ho s key) as [->| ->]; [done|].
    change (get_backend s (deleted f s key w)) with (get_backend s (drop_object s key w)).
    apply object_drop_object.
  - eapply IH; [exact Hrest | done | |].
    + rewrite <- Hs. apply query_move; [auto with queries | by repeat split].
    + rewrite <- Hk. apply query_move; [auto with queries | by repeat split].
Qed.

(** X6: after [CachePartition.purge] returned normally the partition has
    no file record left, nothing is stored any more at the combined key of
    any file it had, the files of other partitions are all still there,
    and the held locks are the same as before. *)
Theorem partition_purge_complete (self : CachePartition) (w w' : World) :
  CachePartition_purge self w = (Ok tt, w') →
  partition_files self w' = [] ∧
  (∀ f s key, In f (partition_files self w) →
              eval (file_storage f) w = Ok s → eval (full_filename f) w = Ok key →
              objects (get_backend s w') !! key = None) ∧
  (NoDup (map file_pk (files w)) →
   ∀ g, In g (files w) → file_partition g ≠ partition_pk self → In g (files w')) ∧
  locks w' = locks w.
Proof.
  intros Hp. split; [by eapply partition_purge_empty|]. split; [|split].
  - intros f s key Hf Hs Hk. by eapply for_each_delete_objects.
  - intros Hnd g Hg Hne. eapply for_each_delete_spares; [exact Hp | done |].
    intros f Hf Heq. apply partition_files_In in Hf as [Hf Hfp].
    assert (f = g) as -> by by eapply NoDup_pk_eq. done.
  - eapply evicted_locks, partition_purge_evicted. exact Hp.
Qed.

Lemma partition_purge_complete_witness :
  partition_files pages (after (CachePartition_purge pages) world2) = [] ∧
  objects (get_backend "thumbnails" (after (CachePartition_purge pages) world2))
    !! "pages-a" = None ∧
  In file_b (files (after (CachePartition_purge pages) world2)).
Proof.
  destruct (partition_purge_complete pages world2
              (after (CachePartition_purge pages) world2))
    as (Hempty & Hobj & Hothers & _); [vm_compute; reflexivity|].
  split; [exact Hempty|]. split.
  - apply (Hobj file_a); [vm_compute; auto | vm_compute; reflexivity..].
  - apply Hothers; [|vm_compute; auto | vm_compute; discriminate].
    apply (bool_decide_unpack (NoDup (map file_pk (files world2)))).
    vm_compute. exact I.
Defined.

(** X7: [CachePartition.purge] does not return normally while the lock of
    one of the partition's files is held: it raises, the record of that
    file is still there, and the held locks are the same as before. *)
Theorem partition_purge_blocked (self : CachePartition) (w : World)
    (f : CachePartitionFile) (n : string) :
  NoDup (map file_pk (files w)) → In f (partition_files self w) →
  eval (file_lock_name f) w = Ok n → n ∈ locks w →
  ∃ e w', CachePartition_purge self w = (Raise e, w') ∧
          In f (files w') ∧ locks w' = locks w.
Proof.
  intros Hnd Hf Hn Hin.
  destruct (CachePartition_purge self w) as [r w'] eqn:Hp.
  pose proof Hf as Hf'. apply partition_files_In in Hf' as [Hfw Hfp].
  assert (Hkept : In f (files w')).
  { eapply (for_each_delete_keeps (partition_files self w) w w); try done.
    - apply evicted_refl.
    - intros g Hg. by apply partition_files_In in Hg as [Hg _]. }
  destruct r as [[]|e].
  - pose proof (partition_purge_empty _ _ _ Hp) as Hempty.
    assert (Hin' : In f (partition_files self w')) by by apply partition_files_In.
    by rewrite Hempty in Hin'.
  - exists e, w'. split; [done|]. split; [done|].
    eapply evicted_locks, partition_purge_evicted. exact Hp.
Qed.

Lemma partition_purge_blocked_witness :
  ∃ e w', CachePartition_purge pages world2_busy = (Raise e, w') ∧
          In file_a (files w') ∧ locks w' = locks world2_busy.
Proof.
  apply (partition_purge_blocked pages world2_busy file_a "cache_partition-file-1-1-a").
  - apply (bool_decide_unpack (NoDup (map file_pk (files world2_busy)))).
    vm_compute. exact I.
  - vm_compute. auto.
  - vm_compute. reflexivity.
  - vm_compute. set_solver.
Defined.

(** X8: [CachePartition.delete] that returns normally has removed the
    partition row and left no file row pointing to it, while the rows of
    the other partitions and their files are all still there; when the
    purge it starts with raises, the partition row is not removed. *)
Theorem partition_delete_outcome (self : CachePartition) (w : World)
    (r : Outcome unit) (w' : World) :
  CachePartition_delete self w = (r, w') →
  (r = Ok tt →
   (∀ p, In p (partitions w') ↔
         In p (partitions w) ∧ partition_pk p ≠ partition_pk self) ∧
   (∀ f, In f (files w') → file_partition f ≠ partition_pk self) ∧
   (NoDup (map file_pk (files w)) →
    ∀ g, In g (files w) → file_partition g ≠ partition_pk self → In g (files w'))) ∧
  (∀ e, r = Raise e →
        partitions w' = partitions w ∧
        CachePartition_purge self w = (Raise e, w')).
Proof.
  unfold CachePartition_delete, bind.
  destruct (CachePartition_purge self w) as [[[]|e] w1] eqn:Hp.
  - intros [= <- <-]. split; [|done]. intros _.
    destruct (evicted_config _ _ (partition_purge_evicted _ _ _ _ Hp)) as (_ & Hparts & _).
    split; [|split].
    + intros p. simpl. rewrite filter_In, Hparts, negb_true_iff, bool_decide_eq_false.
      done.
    + intros f Hf. simpl in Hf. apply filter_In in Hf as [_ Hf].
      by apply negb_true_iff, bool_decide_eq_false in Hf.
    + intros Hnd g Hg Hne. simpl. apply filter_In. split.
      * eapply for_each_delete_spares; [exact Hp | done |].
        intros f Hf Heq. apply partition_files_In in Hf as [Hf Hfp].
        assert (f = g) as -> by by eapply NoDup_pk_eq. done.
      * by apply negb_true_iff, bool_decide_eq_false.
  - intros [= <- <-]. split; [done|]. intros e' [= <-]. split; [|done].
    by destruct (evicted_config _ _ (partition_purge_evicted _ _ _ _ Hp)) as (_ & ? & _).
Qed.

Lemma partition_delete_outcome_witness :
  partitions (after (CachePartition_delete pages) world2) = [covers] ∧
  (∀ f, In f (files (after (CachePartition_delete pages) world2)) →
        file_partition f ≠ partition_pk pages) ∧
  partitions (after (CachePartition_delete pages) world2_busy) = [pages; covers].
Proof.
  destruct (partition_delete_outcome pages world2 (Ok tt)
              (after (CachePartition_delete pages) world2))
    as [Hok _]; [vm_compute; reflexivity|].
  destruct (partition_delete_outcome pages world2_busy (Raise LockError)
              (after (CachePartition_delete pages) world2_busy))
    as [_ Hfail]; [vm_compute; reflexivity|].
  destruct (Hok eq_refl) as (_ & Hfiles & _).
  destruct (Hfail LockError eq_refl) as [Hparts _].
  split; [vm_compute; reflexivity|]. split; [exact Hfiles|].
  rewrite Hparts. reflexivity.
Defined.

(** ** More on the eviction *)

Lemma prune_loop_idle fuel self attempts w :
  get_total_size self w ≤ maximum_size self →
  prune_loop (S fuel) self attempts w = Some (Ok tt, w).
Proof.
  intros Hle. simpl. unfold prune_iteration.
  apply Z.ltb_ge in Hle. by rewrite Hle.
Qed.

(** X9: [Cache.prune] on a cache whose total size is within
    [maximum_size] returns at once and changes nothing; in particular a
    second [prune] after one that returned normally changes nothing. *)
Theorem prune_idle (self : Cache) (w : World) :
  (get_total_size self w ≤ maximum_size self → prune self w = (Ok tt, w)) ∧
  (∀ w', prune self w = (Ok tt, w') → prune self w' = (Ok tt, w')).
Proof.
  assert (Hidle : ∀ w0, get_total_size self w0 ≤ maximum_size self →
                        prune self w0 = (Ok tt, w0)).
  { intros w0 Hle. pose proof (prune_run self w0) as Hr.
    unfold prune_fuel in Hr. rewrite prune_loop_idle in Hr by done. congruence. }
  split; [apply Hidle|]. intros w' Hp. apply Hidle. by eapply prune_bound.
Qed.

Lemma prune_idle_witness :
  prune thumbnails world1 = (Ok tt, world1) ∧
  prune thumbnails (after (prune thumbnails) world2)
    = (Ok tt, after (prune thumbnails) world2).
Proof.
  destruct (prune_idle thumbnails world1) as [Hidle _].
  destruct (prune_idle thumbnails world2) as [_ Hagain].
  split; [apply Hidle; vm_compute; discriminate|].
  apply Hagain. vm_compute. reflexivity.
Defined.

Lemma get_files_In self w f :
  In f (get_files self w) ↔ In f (files w) ∧ in_cache self w f = true.
Proof. unfold get_files. apply filter_In. Qed.

Lemma evicted_get_files self w w' g :
  evicted w w' → In g (get_files self w') → In g (get_files self w).
Proof.
  intros Hev Hg. apply get_files_In in Hg as [Hg Hc]. apply get_files_In.
  split; [by eapply evicted_In|].
  rewrite <- Hc. apply in_cache_config.
  by destruct (evicted_config _ _ Hev) as (_ & ? & _).
Qed.

Lemma prune_loop_order fuel self attempts w r w' f g :
  NoDup (map file_pk (files w)) →
  prune_loop fuel self attempts w = Some (r, w') →
  In f (get_files self w) → ¬ In f (files w') → In g (get_files self w') →
  datetime f ≤ datetime g.
Proof.
  revert attempts w. induction fuel as [|fuel IH]; [done|].
  intros a w Hnd Hloop Hf Hgone Hg. simpl in Hloop.
  destruct (prune_iteration self a w) as [r1 w1] eqn:Hi.
  apply prune_iteration_cases in Hi
    as [(-> & -> & _)|[(v & s & key & Hv & -> & Hd & ->)|[(v & _ & -> & _ & ->)|(e & -> & -> & _)]]].
  - injection Hloop as <- <-. apply get_files_In in Hf as [Hf _]. done.
  - apply prune_victim_Some in Hv as [_ Hv].
    destruct (decide (file_pk f = file_pk v)) as [Heq|Hne].
    + assert (f = v) as ->.
      { apply get_files_In in Hf as [Hf _].
        pose proof (earliest_In _ _ Hv) as Hvin. apply get_files_In in Hvin as [Hvin _].
        by eapply NoDup_pk_eq. }
      apply (earliest_le _ _ _ Hv).
      eapply evicted_get_files; [|exact Hg].
      eapply evicted_trans; [apply evicted_deleted | by eapply prune_loop_evicted].
    + eapply (IH a (deleted v s key w)); try done.
      * by apply NoDup_pk_filter.
      * rewrite get_files_deleted. by apply without_In.
  - destruct (_ <? _).
    + injection Hloop as <- <-. apply get_files_In in Hf as [Hf _]. done.
    + by eapply IH.
  - injection Hloop as <- <-. apply get_files_In in Hf as [Hf _]. done.
Qed.

(** X10: [Cache.prune] evicts oldest first over the whole run: whatever
    its outcome, every file of the cache it removed is at least as old as
    every file of the cache it left. *)
Theorem prune_evicts_oldest (self : Cache) (w : World) (r : Outcome unit)
    (w' : World) (f g : CachePartitionFile) :
  NoDup (map file_pk (files w)) →
  prune self w = (r, w') →
  In f (get_files self w) → ¬ In f (files w') → In g (get_files self w') →
  datetime f ≤ datetime g.
Proof.
  intros Hnd Hp. pose proof (prune_run self w) as Hr. rewrite Hp in Hr.
  by eapply prune_loop_order.
Qed.

Lemma prune_evicts_oldest_witness :
  ¬ In file_a (files (after (prune thumbnails) world2)) ∧
  In file_b (get_files thumbnails (after (prune thumbnails) world2)) ∧
  datetime file_a ≤ datetime file_b.
Proof.
  assert (Hgone : ¬ In file_a (files (after (prune thumbnails) world2))).
  { vm_compute. intros [H|[]]. discriminate H. }
  assert (Hkept : In file_b (get_files thumbnails (after (prune thumbnails) world2)))
    by (vm_compute; auto).
  split; [exact Hgone|]. split; [exact Hkept|].
  apply (prune_evicts_oldest thumbnails world2 (Ok tt)
           (after (prune thumbnails) world2) file_a file_b);
    [|vm_compute; reflexivity | vm_compute; auto | exact Hgone | exact Hkept].
  apply (bool_decide_unpack (NoDup (map file_pk (files world2)))).
  vm_compute. exact I.
Defined.

Lemma prune_loop_spares fuel self attempts w r w' g :
  NoDup (map file_pk (files w)) →
  prune_loop fuel self attempts w = Some (r, w') →
  In g (files w) → in_cache self w g = false → In g (files w').
Proof.
  revert attempts w. induction fuel as [|fuel IH]; [done|].
  intros a w Hnd Hloop Hg Hout. simpl in Hloop.
  destruct (prune_iteration self a w) as [r1 w1] eqn:Hi.
  apply prune_iteration_cases in Hi
    as [(-> & -> & _)|[(v & s & key & Hv & -> & Hd & ->)|[(v & _ & -> & _ & ->)|(e & -> & -> & _)]]].
  - by injection Hloop as <- <-.
  - apply prune_victim_Some in Hv as [_ Hv]. apply earliest_In in Hv.
    apply get_files_In in Hv as [Hv Hvc].
    eapply (IH a (deleted v s key w)); try done.
    + by apply NoDup_pk_filter.
    + apply without_In. split; [done|]. intros Heq.
      assert (g = v) as -> by by eapply NoDup_pk_eq. congruence.
  - destruct (_ <? _); [by injection Hloop as <- <- | by eapply IH].
  - by injection Hloop as <- <-.
Qed.

(** X11: [Cache.prune] removes files of its own cache only: whatever its
    outcome, every file that does not belong to the cache is still there
    afterwards. *)
Theorem prune_spares_other_caches (self : Cache) (w : World) (r : Outcome unit)
    (w' : World) (g : CachePartitionFile) :
  NoDup (map file_pk (files w)) →
  prune self w = (r, w') →
  In g (files w) → in_cache self w g = false → In g (files w').
Proof.
  intros Hnd Hp. pose proof (prune_run self w) as Hr. rewrite Hp in Hr.
  by eapply prune_loop_spares.
Qed.

Lemma prune_spares_other_caches_witness :
  prune_victim thumbnails world_two = Some file_a ∧
  In file_c (files (after (prune thumbnails) world_two)).
Proof.
  split; [vm_compute; reflexivity|].
  apply (prune_spares_other_caches thumbnails world_two
           (eval (prune thumbnails) world_two)).
  - apply (bool_decide_unpack (NoDup (map file_pk (files world_two)))).
    vm_compute. exact I.
  - unfold eval, after. by destruct (prune thumbnails world_two).
  - vm_compute. auto.
  - vm_compute. reflexivity.
Defined.

Lemma prune_loop_needed fuel self attempts w r w' :
  NoDup (map file_pk (files w)) →
  prune_loop fuel self attempts w = Some (r, w') →
  get_files self w' = get_files self w ∨
  ∃ f, In f (get_files self w) ∧ ¬ In f (files w') ∧
       maximum_size self < get_total_size self w' + file_size f.
Proof.
  revert attempts w. induction fuel as [|fuel IH]; [done|].
  intros a w Hnd Hloop. simpl in Hloop.
  destruct (prune_iteration self a w) as [r1 w1] eqn:Hi.
  apply prune_iteration_cases in Hi
    as [(-> & -> & _)|[(v & s & key & Hv & -> & Hd & ->)|[(v & _ & -> & _ & ->)|(e & -> & -> & _)]]].
  - injection Hloop as <- <-. by left.
  - right. apply prune_victim_Some in Hv as [Hlt Hv].
    pose proof (earliest_In _ _ Hv) as Hvin.
    pose proof (prune_loop_evicted _ _ _ _ _ _ Hloop) as Hev.
    destruct (IH a (deleted v s key w) (NoDup_pk_filter _ _ Hnd) Hloop)
      as [Hsame|(f & Hf & Hgone & Hneed)].
    + exists v. split; [done|]. split.
      * intros Hin. apply (evicted_In _ _ _ Hev) in Hin. simpl in Hin.
        by apply without_In in Hin as [_ ?].
      * unfold get_total_size. rewrite Hsame, get_files_deleted.
        rewrite sum_sizes_without; [|by apply NoDup_get_files|done].
        unfold get_total_size in Hlt. lia.
    + exists f. split; [|done]. rewrite get_files_deleted in Hf.
      by apply without_In in Hf as [? _].
  - destruct (_ <? _); [injection Hloop as <- <-; by left | by eapply IH].
  - injection Hloop as <- <-. by left.
Qed.

(** X12: [Cache.prune] evicts no more than the bound asks for: unless it
    left the files of the cache as they were, there is a file it removed
    without which the cache would not be within [maximum_size]. *)
Theorem prune_evicts_no_more_than_needed (self : Cache) (w : World)
    (r : Outcome unit) (w' : World) :
  NoDup (map file_pk (files w)) →
  prune self w = (r, w') →
  get_files self w' = get_files self w ∨
  ∃ f, In f (get_files self w) ∧ ¬ In f (files w') ∧
       maximum_size self < get_total_size self w' + file_size f.
Proof.
  intros Hnd Hp. pose proof (prune_run self w) as Hr. rewrite Hp in Hr.
  by eapply prune_loop_needed.
Qed.

Lemma prune_evicts_no_more_than_needed_witness :
  get_files thumbnails (after (prune thumbnails) world2) = [file_b] ∧
  (get_files thumbnails (after (prune thumbnails) world2) = get_files thumbnails world2 ∨
   ∃ f, In f (get_files thumbnails world2) ∧
        ¬ In f (files (after (prune thumbnails) world2)) ∧
        maximum_size thumbnails
        < get_total_size thumbnails (after (prune thumbnails) world2) + file_size f).
Proof.
  split; [vm_compute; reflexivity|].
  apply (prune_evicts_no_more_than_needed thumbnails world2
           (eval (prune thumbnails) world2)).
  - apply (bool_decide_unpack (NoDup (map file_pk (files world2)))).
    vm_compute. exact I.
  - unfold eval, after. by destruct (prune thumbnails world2).
Defined.

(** ** Combined keys *)

Lemma create_file_stored self fname caller w w' :
  eval (get_partition (partition_pk self)) w = Ok self →
  create_file self fname (caller_block caller) w = (Ok tt, w') →
  stored_bytes self fname w' = Some (concat (chunks caller)).
Proof.
  intros Hp Hrun.
  destruct (create_file_returns _ _ _ _ _ Hp Hrun) as (n & c & wp & s & wx & Hy & ->).
  destruct (yielded_files _ _ _ _ _ _ _ _ _ Hy) as (_ & Hcfg & _ & _).
  destruct Hy as (((_ & _ & Hc & _) & Hs & _) & _ & _ & _ & Hobj).
  unfold unlocked. rewrite stored_bytes_locks.
  rewrite (stored_bytes_run self fname c s w); [done..|].
  destruct Hcfg as (? & ? & ?). by repeat split.
Qed.

Lemma append_assoc (a b c : string) : (a +:+ b) +:+ c = a +:+ (b +:+ c).
Proof.
  induction a as [|x a IH]; [done|].
  change (String x ((a +:+ b) +:+ c) = String x (a +:+ (b +:+ c))).
  by rewrite IH.
Qed.

(** X13: the combined key does not tell partition and filename apart when
    the partition name or the filename contains the separator: partition
    "p-q" with file "f" and partition "p" with file "q-f" have the same
    key.  For two partitions of one cache whose combined keys coincide, a
    [create_file] in one that returns normally makes the bytes of its
    caller what is stored for the other. *)
Theorem combined_key_collision :
  (∀ p q f, get_combined_filename (p +:+ "-" +:+ q) f
            = get_combined_filename p (q +:+ "-" +:+ f)) ∧
  (∀ p1 p2 f1 f2 caller w w',
     eval (get_partition (partition_pk p2)) w = Ok p2 →
     partition_cache p1 = partition_cache p2 →
     get_full_filename p1 f1 = get_full_filename p2 f2 →
     create_file p2 f2 (caller_block caller) w = (Ok tt, w') →
     stored_bytes p1 f1 w' = Some (concat (chunks caller))).
Proof.
  split.
  - intros p q f. unfold get_combined_filename. by rewrite !append_assoc.
  - intros p1 p2 f1 f2 caller w w' Hp Hc Hk Hrun.
    rewrite <- (create_file_stored p2 f2 caller w w' Hp Hrun).
    unfold stored_bytes. by rewrite Hc, Hk.
Qed.

Lemma combined_key_collision_witness :
  stored_bytes part_a "b-c"
    (after (create_file part_a "b-c" (caller_block first_write)) world_ab)
    = Some [Byte.x41; Byte.x41; Byte.x41] ∧
  stored_bytes part_a "b-c"
    (after (create_file part_ab "c" (caller_block second_write))
       (after (create_file part_a "b-c" (caller_block first_write)) world_ab))
    = Some [Byte.x42; Byte.x42].
Proof.
  destruct combined_key_collision as [_ Hclash].
  split; [vm_compute; reflexivity|].
  apply (Hclash part_a part_ab "b-c" "c" second_write
           (after (create_file part_a "b-c" (caller_block first_write)) world_ab));
    vm_compute; reflexivity.
Defined.

(** ** Saving a cache *)

Lemma find_snoc {A} (p : A → bool) (l : list A) (a : A) :
  existsb p l = false → p a = true → find p (l ++ [a]) = Some a.
Proof.
  intros Hl Ha. induction l as [|b l IH]; simpl; [by rewrite Ha|].
  simpl in Hl. apply orb_false_iff in Hl as [Hb Hl]. rewrite Hb. by apply IH.
Qed.

Lemma find_replaced_cache pk (self : Cache) (l : list Cache) :
  cache_pk self = Some pk →
  existsb (fun c => bool_decide (cache_pk c = Some pk)) l = true →
  find (fun c => bool_decide (cache_pk c = Some pk))
       (map (fun c => if bool_decide (cache_pk c = Some pk) then self else c) l)
  = Some self.
Proof.
  intros Hpk. induction l as [|c l IH]; simpl; [done|].
  destruct (bool_decide (cache_pk c = Some pk)) eqn:Hc.
  - intros _. by rewrite bool_decide_eq_true_2.
  - simpl. rewrite Hc. apply IH.
Qed.

Lemma cache_save_record_found self w saved w1 :
  ¬ In (Some (next_cache_pk w)) (map cache_pk (caches w)) →
  cache_save_record self w = (Ok saved, w1) →
  ∃ pk, cache_pk saved = Some pk ∧ eval (get_cache pk) w1 = Ok saved ∧
        (cache_pk self = Some pk ∨ (cache_pk self = None ∧ pk = next_cache_pk w)).
Proof.
  intros Hfresh. unfold cache_save_record. destruct (existsb _ _); [done|].
  destruct (cache_pk self) as [pk|] eqn:Hpk.
  - destruct (existsb _ (caches w)) eqn:Hex; intros [= <- <-];
      exists pk; (split; [done|]); (split; [|by left]);
      unfold eval, get_cache; simpl.
    + by rewrite find_replaced_cache.
    + rewrite find_snoc; [done | done | by apply bool_decide_eq_true].
  - intros [= <- <-]. exists (next_cache_pk w). split; [done|]. split; [|by right].
    unfold eval, get_cache. simpl. rewrite find_snoc; [done| |by apply bool_decide_eq_true].
    apply not_true_is_false. intros Hex. apply Hfresh.
    apply existsb_exists in Hex as (c & Hc & Hb). apply bool_decide_eq_true in Hb.
    rewrite <- Hb. by apply in_map.
Qed.

(** X14: [Cache.save] of a cache whose [defined_storage_name] is taken by
    another cache raises IntegrityError and changes nothing.  Once the row
    is written it stays written: also when the [prune] that follows
    raises, the saved configuration is in the table.  After a [save] that
    returned normally the cache is found under its key, which is its old
    key or, for a new cache, the next key of the sequence. *)
Theorem save_persists (self : Cache) (w : World) :
  (∀ c, In c (caches w) → defined_storage_name c = defined_storage_name self →
        cache_pk c ≠ cache_pk self →
        Cache_save self w = (Raise IntegrityError, w)) ∧
  (∀ saved w1 r w', cache_save_record self w = (Ok saved, w1) →
                    Cache_save self w = (r, w') →
                    In saved (caches w') ∧ maximum_size saved = maximum_size self) ∧
  (¬ In (Some (next_cache_pk w)) (map cache_pk (caches w)) →
   ∀ saved w', Cache_save self w = (Ok saved, w') →
     ∃ pk, cache_pk saved = Some pk ∧ eval (get_cache pk) w' = Ok saved ∧
           (cache_pk self = Some pk ∨ (cache_pk self = None ∧ pk = next_cache_pk w))).
Proof.
  split; [|split].
  - intros c Hc Hname Hpk. unfold Cache_save, bind, cache_save_record.
    assert (Hex : existsb (fun c => bool_decide (defined_storage_name c
                                                 = defined_storage_name self)
                     && negb (bool_decide (cache_pk c = cache_pk self))) (caches w) = true).
    { apply existsb_exists. exists c. split; [done|].
      by rewrite bool_decide_eq_true_2, bool_decide_eq_false_2. }
    by rewrite Hex.
  - intros saved w1 r w' Hs. unfold Cache_save, bind. rewrite Hs.
    destruct (cache_save_record_saved _ _ _ _ Hs) as (Hin & Hm & _).
    destruct (prune saved w1) as [[[]|e] w2] eqn:Hp; intros [= <- <-];
      destruct (evicted_config _ _ (prune_evicted _ _ _ _ Hp)) as (-> & _); done.
  - intros Hfresh saved w'. unfold Cache_save, bind.
    destruct (cache_save_record self w) as [[c|e] w1] eqn:Hs; [|done].
    destruct (prune c w1) as [[[]|e] w2] eqn:Hp; [|done]. intros [= <- <-].
    destruct (cache_save_record_found _ _ _ _ Hfresh Hs) as (pk & Hpk & Hget & Hwhich).
    exists pk. split; [done|]. split; [|done].
    rewrite <- Hget. apply query_move; [auto with queries|].
    eapply evicted_config, prune_evicted. exact Hp.
Qed.

Lemma save_persists_witness :
  Cache_save {| cache_pk := None; defined_storage_name := "thumbnails";
                maximum_size := 10 |} world2
    = (Raise IntegrityError, world2) ∧
  eval (get_cache 2) (after (Cache_save
         {| cache_pk := None; defined_storage_name := "archive";
            maximum_size := 5000 |}) world2) = Ok archive.
Proof.
  split.
  - destruct (save_persists {| cache_pk := None; defined_storage_name := "thumbnails";
                               maximum_size := 10 |} world2) as (Hclash & _).
    apply (Hclash thumbnails); [vm_compute; auto | reflexivity | discriminate].
  - destruct (save_persists {| cache_pk := None; defined_storage_name := "archive";
                               maximum_size := 5000 |} world2) as (_ & _ & Hfound).
    destruct (Hfound ltac:(vm_compute; intros [H|[]]; discriminate H) archive
                (after (Cache_save {| cache_pk := None;
                                      defined_storage_name := "archive";
                                      maximum_size := 5000 |}) world2)
                ltac:(vm_compute; reflexivity))
      as (pk & Hpk & Hget & _).
    injection Hpk as <-. exact Hget.
Defined.

(** ** Purging a cache *)

Lemma find_unique_partition (l : list CachePartition) p :
  NoDup (map partition_pk l) → In p l →
  find (fun q => bool_decide (partition_pk q = partition_pk p)) l = Some p.
Proof.
  induction l as [|q l IH]; simpl; [done|].
  intros Hnd Hin. apply NoDup_cons in Hnd as [Hq Hnd]. rewrite list_elem_of_In in Hq.
  destruct Hin as [->|Hin]; [by rewrite bool_decide_eq_true_2|].
  rewrite bool_decide_eq_false_2; [by apply IH|].
  intros Heq. apply Hq. rewrite Heq. by apply in_map.
Qed.

Lemma for_each_purge_spares ps w0 w r w' g :
  evicted w0 w → NoDup (map file_pk (files w0)) →
  (∀ p f, In p ps → In f (files w0) → file_partition f = partition_pk p →
          file_pk f ≠ file_pk g) →
  for_each ps CachePartition_purge w = (r, w') →
  In g (files w) → In g (files w').
Proof.
  intros Hev Hnd Hne. revert w Hev. induction ps as [|p ps IH]; intros w Hev.
  { by intros [= <- <-]. }
  rewrite for_each_cons.
  destruct (CachePartition_purge p w) as [[[]|e] w1] eqn:Hp.
  - intros Hrest Hg.
    eapply (IH (fun q f Hq => Hne q f (or_intror Hq)) w1); [|exact Hrest|].
    + eapply evicted_trans; [done | by eapply partition_purge_evicted].
    + eapply for_each_delete_spares; [exact Hp | done |].
      intros f Hf. apply partition_files_In in Hf as [Hf Hfp].
      apply (Hne p f); [by left | by eapply evicted_In | done].
  - intros [= <- <-] Hg.
    eapply for_each_delete_spares; [exact Hp | done |].
    intros f Hf. apply partition_files_In in Hf as [Hf Hfp].
    apply (Hne p f); [by left | by eapply evicted_In | done].
Qed.

Lemma for_each_purge_idle ps w :
  (∀ p, In p ps → partition_files p w = []) →
  for_each ps CachePartition_purge w = (Ok tt, w).
Proof.
  induction ps as [|p ps IH]; [done|]. intros Hall. rewrite for_each_cons.
  unfold CachePartition_purge at 1. rewrite (Hall p) by by left. simpl.
  apply IH. intros q Hq. apply Hall. by right.
Qed.

(** X15: [Cache.purge] is idempotent: after a purge that returned
    normally, a further purge returns normally and changes nothing.  And
    it removes files of its own cache only: whatever its outcome, every
    file that does not belong to the cache is still there afterwards. *)
Theorem cache_purge_idempotent (self : Cache) (w : World) :
  (∀ w', Cache_purge self w = (Ok tt, w') → Cache_purge self w' = (Ok tt, w')) ∧
  (NoDup (map file_pk (files w)) → NoDup (map partition_pk (partitions w)) →
   ∀ r w' g, Cache_purge self w = (r, w') →
             In g (files w) → in_cache self w g = false → In g (files w')).
Proof.
  split.
  - intros w' Hp. pose proof (cache_purge_evicted _ _ _ _ Hp) as Hev.
    destruct (evicted_config _ _ Hev) as (_ & Hparts & Hreg).
    revert Hp. unfold Cache_purge, bind, attempt, DefinedStorage_get.
    rewrite Hreg.
    destruct (registry w !! defined_storage_name self) as [d|]; simpl.
    + intros Hp. apply for_each_purge_idle. intros p Hin.
      eapply for_each_purge_empty; [exact Hp|].
      unfold cache_partitions in *. by rewrite <- Hparts.
    + by intros [= <-].
  - intros Hnd Hndp r w' g. unfold Cache_purge, bind, attempt, DefinedStorage_get.
    destruct (registry w !! defined_storage_name self) as [d|]; simpl.
    2:{ by intros [= <- <-]. }
    intros Hp Hg Hout.
    eapply (for_each_purge_spares _ w w); [apply evicted_refl | done | | exact Hp | done].
    intros p f Hp' Hf Hfp Heq.
    assert (f = g) as -> by by eapply NoDup_pk_eq.
    apply filter_In in Hp' as [Hpin Hpc]. apply bool_decide_eq_true in Hpc.
    unfold in_cache in Hout. rewrite Hfp in Hout.
    rewrite (find_unique_partition _ p Hndp Hpin) in Hout.
    by apply bool_decide_eq_false in Hout.
Qed.

Lemma cache_purge_idempotent_witness :
  Cache_purge thumbnails (after (Cache_purge thumbnails) world_two)
    = (Ok tt, after (Cache_purge thumbnails) world_two) ∧
  In file_c (files (after (Cache_purge thumbnails) world_two)).
Proof.
  destruct (cache_purge_idempotent thumbnails world_two) as [Hidem Hspares].
  split.
  - apply Hidem. vm_compute. reflexivity.
  - apply (Hspares
             ltac:(apply (bool_decide_unpack (NoDup (map file_pk (files world_two))));
                   vm_compute; exact I)
             ltac:(apply (bool_decide_unpack
                            (NoDup (map partition_pk (partitions world_two))));
                   vm_compute; exact I)
             (Ok tt));
      [vm_compute; reflexivity | vm_compute; auto | vm_compute; reflexivity].
Defined.

(** ** The files of a cache and of its partitions *)

(** X16: the files [Cache.get_files] returns, and [get_total_size] sums
    over, are files of partitions of that cache; and with unique partition
    keys every file of every partition of the cache is among them. *)
Theorem get_files_of_partitions (self : Cache) (w : World) (f : CachePartitionFile) :
  (In f (get_files self w) →
   ∃ p, In p (cache_partitions self w) ∧ In f (partition_files p w)) ∧
  (NoDup (map partition_pk (partitions w)) →
   ∀ p, In p (cache_partitions self w) → In f (partition_files p w) →
        In f (get_files self w)).
Proof.
  split.
  - intros Hf. apply get_files_In in Hf as [Hf Hc]. unfold in_cache in Hc.
    destruct (find _ (partitions w)) as [p|] eqn:Hfind; [|done].
    apply find_some in Hfind as [Hp Hpk].
    apply bool_decide_eq_true in Hpk. exists p. split.
    + apply filter_In. by split.
    + by apply partition_files_In.
  - intros Hnd p Hp Hf. apply partition_files_In in Hf as [Hf Hfp].
    apply filter_In in Hp as [Hp Hpc].
    apply get_files_In. split; [done|]. unfold in_cache.
    by rewrite Hfp, (find_unique_partition _ p Hnd Hp).
Qed.

Lemma get_files_of_partitions_witness :
  In file_b (get_files thumbnails world_two).
Proof.
  destruct (get_files_of_partitions thumbnails world_two file_b) as [_ Hin].
  apply (Hin ltac:(apply (bool_decide_unpack
                            (NoDup (map partition_pk (partitions world_two))));
                   vm_compute; exact I) covers);
    vm_compute; auto.
Defined.

(** ** The records around a [create_file] that needs no eviction *)

Lemma prune_locked_idle self n w :
  get_total_size self w ≤ maximum_size self →
  prune self (locked n w) = (Ok tt, locked n w).
Proof.
  intros Hle. pose proof (prune_run self (locked n w)) as Hr.
  unfold prune_fuel in Hr. rewrite prune_loop_idle in Hr by done. congruence.
Qed.





(** ** What [create_file] leaves alone in the storage *)

Lemma frame_refl s key w : frame s key w w.
Proof. by intros s' k _. Qed.

Lemma frame_trans s key w1 w2 w3 :
  frame s key w1 w2 → frame s key w2 w3 → frame s key w1 w3.
Proof. intros H1 H2 s' k Hne. by rewrite H2, H1. Qed.

Lemma frame_put_object s key content w : frame s key w (put_object s key content w).
Proof.
  intros s' k Hne. rewrite get_backend_put_object.
  destruct (decide (s = s')) as [<-|]; [|done]. simpl.
  destruct Hne as [|Hne]; [done|]. by apply lookup_insert_ne.
Qed.

Lemma frame_drop_object s key w : frame s key w (drop_object s key w).
Proof.
  intros s' k Hne. rewrite get_backend_drop_object.
  destruct (decide (s = s')) as [<-|]; [|done]. simpl.
  destruct Hne as [|Hne]; [done|]. by apply lookup_delete_ne.
Qed.

Lemma keeps_ret w0 s key {A} (a : A) (Q : A → Prop) : Q a → keeps w0 s key (ret a) Q.
Proof.
  intros Ha w Hcfg r w' [= <- <-]. split; [done|]. split; [apply frame_refl|].
  by intros a' [= <-].
Qed.

Lemma keeps_raise w0 s key {A} e (Q : A → Prop) : keeps w0 s key (raise e) Q.
Proof.
  intros w Hcfg r w' [= <- <-]. split; [done|]. split; [apply frame_refl | done].
Qed.

Lemma keeps_bind w0 s key {A B} (m : Op A) (k : A → Op B) Q R :
  keeps w0 s key m Q → (∀ a, Q a → keeps w0 s key (k a) R) →
  keeps w0 s key (bind m k) R.
Proof.
  intros Hm Hk w Hcfg r w'. unfold bind.
  destruct (m w) as [[a|e] w1] eqn:Hrun.
  - destruct (Hm w Hcfg _ _ Hrun) as (Hc1 & Hf1 & HQ). intros Hrest.
    destruct (Hk a (HQ a eq_refl) w1 Hc1 _ _ Hrest) as (Hc2 & Hf2 & HR).
    split; [done|]. split; [by eapply frame_trans | done].
  - destruct (Hm w Hcfg _ _ Hrun) as (Hc1 & Hf1 & _). intros [= <- <-]. done.
Qed.

Lemma keeps_attempt w0 s key {A} (m : Op A) Q :
  keeps w0 s key m Q →
  keeps w0 s key (attempt m) (fun r => ∀ a, r = Ok a → Q a).
Proof.
  intros Hm w Hcfg r w'. unfold attempt.
  destruct (m w) as [r1 w1] eqn:Hrun. intros [= <- <-].
  destruct (Hm w Hcfg _ _ Hrun) as (Hc1 & Hf1 & HQ).
  split; [done|]. split; [done|]. by intros r' [= <-].
Qed.

Lemma keeps_query w0 s key {A} (m : Op A) :
  query m → keeps w0 s key m (fun a => eval m w0 = Ok a).
Proof.
  intros Hq w Hcfg r w'. rewrite (query_run m w Hq). intros [= <- <-].
  split; [done|]. split; [apply frame_refl|].
  intros a Ha. by rewrite <- (query_move m w w0 Hq Hcfg).
Qed.

Lemma keeps_storage_call w0 s key {A} op (f : Backend → Outcome (A * Backend)) :
  (∀ b a b', f b = Ok (a, b') → ∀ k, k ≠ key → objects b' !! k = objects b !! k) →
  keeps w0 s key (storage_call s op key f) (fun _ => True).
Proof.
  intros Hf w Hcfg r w'. unfold storage_call.
  destruct (fault _ _ _).
  { intros [= <- <-]. split; [done|]. split; [apply frame_refl | done]. }
  destruct (f (get_backend s w)) as [[a b']|e] eqn:Hrun.
  - intros [= <- <-]. split; [by destruct Hcfg as (? & ? & ?)|]. split; [|done].
    intros s' k Hne. unfold get_backend at 1. simpl.
    destruct (decide (s = s')) as [<-|Hs].
    + rewrite lookup_insert_eq. simpl. destruct Hne as [|Hne]; [done|].
      by apply (Hf _ _ _ Hrun).
    + by rewrite lookup_insert_ne.
  - intros [= <- <-]. split; [done|]. split; [apply frame_refl | done].
Qed.

Lemma keeps_storage_delete w0 s key :
  keeps w0 s key (storage_delete s key) (fun _ => True).
Proof.
  apply keeps_storage_call. intros b a b' [= _ <-] k Hne. simpl.
  by apply lookup_delete_ne.
Qed.

Lemma keeps_storage_save w0 s key content :
  keeps w0 s key (storage_save s key content) (fun _ => True).
Proof.
  apply keeps_storage_call. intros b a b' [= _ <-] k Hne. simpl.
  by apply lookup_insert_ne.
Qed.

Lemma keeps_storage_open w0 s key mode :
  keeps w0 s key (storage_open s key mode)
    (fun stream => stream_storage stream = s ∧ stream_name stream = key).
Proof.
  unfold storage_open. intros w Hcfg r w' Hrun.
  unshelve epose proof
    (keeps_storage_call w0 s key OpOpen _ _ w Hcfg r w' Hrun) as (Hc & Hf & _).
  { intros b a b'. simpl. destruct (objects b !! key); [|done].
    intros [= _ <-] k Hne. destruct (decide _); [|done]. simpl.
    by apply lookup_insert_ne. }
  split; [done|]. split; [done|].
  intros a ->. revert Hrun. unfold storage_call.
  destruct (fault _ _ _); [done|]. destruct (_ !! key); [|done].
  by intros [= <- _].
Qed.

Lemma keeps_storage_size w0 s key :
  keeps w0 s key (storage_size s key) (fun _ => True).
Proof.
  apply keeps_storage_call. intros b a b'. destruct (objects b !! key); [|done].
  by intros [= _ <-].
Qed.

Lemma keeps_files (w0 : World) s key {A} (m : Op A) (Q : A → Prop) :
  (∀ w r w', m w = (r, w') →
     (∃ fs nf ck, w' = {| caches := caches w; partitions := partitions w; files := fs;
                          registry := registry w; stores := stores w; locks := locks w;
                          clock := ck; next_file_pk := nf;
                          next_cache_pk := next_cache_pk w;
                          maximum_prune_attempts := maximum_prune_attempts w |}) ∧
     ∀ a, r = Ok a → Q a) →
  keeps w0 s key m Q.
Proof.
  intros Hm w Hcfg r w' Hrun.
  destruct (Hm _ _ _ Hrun) as ((fs & nf & ck & ->) & HQ).
  split; [by destruct Hcfg as (? & ? & ?)|]. split; [|done]. by intros s' k _.
Qed.

Lemma keeps_files_create w0 s key self fname :
  keeps w0 s key (files_create self fname)
    (fun f => file_partition f = partition_pk self ∧ filename f = fname).
Proof.
  apply keeps_files. intros w r w'. rewrite files_create_run.
  destruct (has_record self fname w); intros [= <- <-].
  - split; [|done]. exists (files w), (next_file_pk w), (clock w). by destruct w.
  - split; [by eexists _, _, _|]. by intros a [= <-].
Qed.

Lemma keeps_file_delete_record w0 s key f :
  keeps w0 s key (file_delete_record f) (fun _ => True).
Proof.
  apply keeps_files. intros w r w' [= <- <-]. split; [by eexists _, _, _ | done].
Qed.

Lemma keeps_file_save w0 s key f : keeps w0 s key (file_save f) (fun _ => True).
Proof.
  apply keeps_files. intros w r w'. unfold file_save.
  destruct (existsb (has_pk _) _); [intros [= <- <-]; split; [by eexists _, _, _|done]|].
  destruct (existsb _ _); intros [= <- <-]; (split; [|done]).
  - exists (files w), (next_file_pk w), (clock w). by destruct w.
  - by eexists _, _, _.
Qed.

Lemma keeps_write_chunks w0 s key mode l :
  keeps w0 s key
    (write_chunks {| stream_storage := s; stream_name := key; stream_mode := mode |} l)
    (fun _ => True).
Proof.
  induction l as [|chunk l IH]; simpl; [by apply keeps_ret|].
  apply keeps_bind with (Q := fun _ => True); [|intros _ _; exact IH].
  intros w Hcfg r w'. rewrite stream_write_run.
  destruct (_ !! key); intros [= <- <-].
  - split; [by destruct Hcfg as (? & ? & ?)|]. split; [apply frame_put_object | done].
  - split; [done|]. split; [apply frame_refl | done].
Qed.

Lemma keeps_caller_block w0 s key caller stream :
  stream_storage stream = s → stream_name stream = key →
  keeps w0 s key (caller_block caller stream) (fun _ => True).
Proof.
  destruct stream as [s' key' mode]. simpl. intros -> ->. unfold caller_block.
  eapply keeps_bind; [apply keeps_write_chunks|]. intros _ _.
  destruct (failure caller); [apply keeps_raise | by apply keeps_ret].
Qed.

(** The methods of a file of partition [self] named [fname], called with
    [_acquire_lock=False]. *)
Lemma keeps_file_methods w0 self fname cache s f :
  eval (get_partition (partition_pk self)) w0 = Ok self →
  eval (get_cache (partition_cache self)) w0 = Ok cache →
  eval (Cache_storage cache) w0 = Ok s →
  file_partition f = partition_pk self → filename f = fname →
  keeps w0 s (get_full_filename self fname)
    (CachePartitionFile_open f "wb" false)
    (fun stream => stream_storage stream = s
                   ∧ stream_name stream = get_full_filename self fname) ∧
  keeps w0 s (get_full_filename self fname)
    (CachePartitionFile_delete f false) (fun _ => True) ∧
  (∀ size, keeps w0 s (get_full_filename self fname)
             (update_size (with_file_size size f) false) (fun _ => True)) ∧
  keeps w0 s (get_full_filename self fname) (update_size f false) (fun _ => True).
Proof.
  intros Hp Hc Hs Hfp Hfn.
  destruct (file_queries self fname cache s f w0 w0 Hp Hc Hs Hfp Hfn
              (same_config_refl w0)) as (Hfs & Hfk & _).
  assert (Hupd : ∀ g, file_partition g = partition_pk self → filename g = fname →
            keeps w0 s (get_full_filename self fname) (update_size g false)
              (fun _ => True)).
  { intros g Hgp Hgn.
    destruct (file_queries self fname cache s g w0 w0 Hp Hc Hs Hgp Hgn
                (same_config_refl w0)) as (Hgs & Hgk & _).
    unfold update_size, locked_class_method.
    eapply keeps_bind; [apply keeps_query; auto with queries|]. intros s' Hs'.
    eapply keeps_bind; [apply keeps_query; auto with queries|]. intros k' Hk'.
    assert (s' = s) as -> by congruence.
    assert (k' = get_full_filename self fname) as -> by congruence.
    eapply keeps_bind; [apply keeps_storage_size|]. intros size _.
    eapply keeps_bind; [apply keeps_file_save|]. intros _ _. by apply keeps_ret. }
  split; [|split; [|split]].
  - unfold CachePartitionFile_open, locked_class_method.
    eapply keeps_bind; [apply keeps_query; auto with queries|]. intros s' Hs'.
    eapply keeps_bind; [apply keeps_query; auto with queries|]. intros k' Hk'.
    assert (s' = s) as -> by congruence.
    assert (k' = get_full_filename self fname) as -> by congruence.
    apply keeps_storage_open.
  - unfold CachePartitionFile_delete, locked_class_method.
    eapply keeps_bind; [apply keeps_query; auto with queries|]. intros s' Hs'.
    eapply keeps_bind; [apply keeps_query; auto with queries|]. intros k' Hk'.
    assert (s' = s) as -> by congruence.
    assert (k' = get_full_filename self fname) as -> by congruence.
    eapply keeps_bind; [apply keeps_storage_delete|]. intros _ _.
    apply keeps_file_delete_record.
  - intros size. by apply Hupd.
  - by apply Hupd.
Qed.

Lemma keeps_create_partition_file w0 self fname cache s caller :
  eval (get_partition (partition_pk self)) w0 = Ok self →
  eval (get_cache (partition_cache self)) w0 = Ok cache →
  eval (Cache_storage cache) w0 = Ok s →
  keeps w0 s (get_full_filename self fname)
    (create_partition_file self fname s (caller_block caller)) (fun _ => True).
Proof.
  intros Hp Hc Hs. unfold create_partition_file.
  eapply keeps_bind; [apply keeps_attempt, keeps_files_create|].
  intros [pf|e] Hpf.
  - destruct (Hpf pf eq_refl) as [Hfp Hfn].
    destruct (keeps_file_methods w0 self fname cache s pf Hp Hc Hs Hfp Hfn)
      as (Hopen & Hdel & _ & Hupd).
    eapply keeps_bind.
    { apply keeps_attempt. eapply keeps_bind; [exact Hopen|].
      intros stream [Hss Hsn]. eapply keeps_bind; [by apply keeps_caller_block|].
      intros _ _. by apply (keeps_ret _ _ _ stream (fun _ => True)). }
    intros [stream|e] _.
    + eapply keeps_bind; [by apply (keeps_ret _ _ _ _ (fun _ => True))|]. intros _ _.
      eapply keeps_bind; [exact Hupd|]. intros _ _. by apply keeps_ret.
    + eapply keeps_bind; [exact Hdel|]. intros _ _. apply keeps_raise.
  - eapply keeps_bind; [apply keeps_storage_delete|]. intros _ _. apply keeps_raise.
Qed.

(** X18: in a cache within its bound, [create_file] stores and removes
    nothing but the object at the combined key of the file: whatever the
    outcome, every other object of every storage is afterwards what it
    was before. *)
Theorem create_file_frame (self : CachePartition) (fname : string)
    (caller : Caller) (w : World) (cache : Cache) (s : string)
    (r : Outcome unit) (w' : World) :
  eval (get_partition (partition_pk self)) w = Ok self →
  eval (get_cache (partition_cache self)) w = Ok cache →
  eval (Cache_storage cache) w = Ok s →
  get_total_size cache w ≤ maximum_size cache →
  create_file self fname (caller_block caller) w = (r, w') →
  ∀ s' k, s' ≠ s ∨ k ≠ get_full_filename self fname →
          objects (get_backend s' w') !! k = objects (get_backend s' w) !! k.
Proof.
  intros Hp Hc Hs Hle. rewrite create_file_run.
  destruct (eval (get_file_lock_name self fname) w) as [n|e]; [|by intros [= <- <-]].
  destruct (decide _); [by intros [= <- <-]|].
  destruct (create_file_locked self fname (caller_block caller) (locked n w))
    as [rb wb] eqn:Hrun.
  simpl. intros [= <- <-].
  change (frame s (get_full_filename self fname) w (unlocked n wb)).
  revert Hrun. unfold create_file_locked.
  rewrite bind_query by auto with queries.
  rewrite (query_move _ _ _ (query_get_cache _) (locked_config n w)), Hc.
  unfold bind at 1. rewrite (prune_locked_idle cache n w Hle).
  intros Hrun.
  assert (Hk : keeps w s (get_full_filename self fname)
            (storage <~ Cache_storage cache;;
             storage_delete storage (get_full_filename self fname);;;
             storage_save storage (get_full_filename self fname) [];;;
             create_partition_file self fname storage (caller_block caller))
            (fun _ => True)).
  { eapply keeps_bind; [apply keeps_query; auto with queries|]. intros s' Hs'.
    assert (s' = s) as -> by congruence.
    eapply keeps_bind; [apply keeps_storage_delete|]. intros _ _.
    eapply keeps_bind; [apply keeps_storage_save|]. intros _ _.
    by eapply keeps_create_partition_file. }
  destruct (Hk (locked n w) (locked_config n w) _ _ Hrun) as (_ & Hf & _).
  exact Hf.
Qed.

Lemma create_file_frame_witness :
  objects (get_backend "thumbnails"
             (after (create_file covers "b" (caller_block (payload 600))) world1))
    !! "pages-a"
  = objects (get_backend "thumbnails" world1) !! "pages-a".
Proof.
  apply (create_file_frame covers "b" (payload 600) world1 thumbnails "thumbnails"
           (Ok tt));
    [vm_compute; reflexivity | vm_compute; reflexivity | vm_compute; reflexivity
    | vm_compute; discriminate | vm_compute; reflexivity | right; discriminate].
Defined.

(** ** What eviction leaves alone in the storage *)

Lemma frame_deleted f s key w : frame s key w (deleted f s key w).
Proof.
  intros s' k Hne.
  change (get_backend s' (deleted f s key w))
    with (get_backend s' (drop_object s key w)).
  by apply frame_drop_object.
Qed.

(** X19: [CachePartitionFile.delete] removes no object but the one at the
    combined key of the file, in the storage of its cache, and no row but
    the one of the file; caches, partitions and held locks are as
    before.  This holds whatever the outcome and with or without the
    lock. *)
Theorem delete_leaves_the_rest (self : CachePartitionFile) (acquire : bool)
    (w : World) (r : Outcome unit) (w' : World) :
  CachePartitionFile_delete self acquire w = (r, w') →
  (∀ s key s' k,
     eval (file_storage self) w = Ok s → eval (full_filename self) w = Ok key →
     s' ≠ s ∨ k ≠ key →
     objects (get_backend s' w') !! k = objects (get_backend s' w) !! k) ∧
  (∀ g, In g (files w) → file_pk g ≠ file_pk self → In g (files w')) ∧
  caches w' = caches w ∧ partitions w' = partitions w ∧ locks w' = locks w.
Proof.
  intros Hd.
  apply delete_cases in Hd as [(e & _ & ->)|(_ & s & key & Hs & Hk & _ & ->)]; [done|].
  split; [|split; [|done]].
  - intros s1 key1 s' k Hs1 Hk1 Hne.
    assert (s1 = s) as -> by congruence. assert (key1 = key) as -> by congruence.
    by apply frame_deleted.
  - intros g Hg Hne. simpl. apply without_In. split; [done|]. congruence.
Qed.

Lemma delete_leaves_the_rest_witness :
  objects (get_backend "thumbnails" (after (CachePartitionFile_delete file_a true) world2))
    !! "pages-b"
  = objects (get_backend "thumbnails" world2) !! "pages-b" ∧
  In file_b (files (after (CachePartitionFile_delete file_a true) world2)).
Proof.
  destruct (delete_leaves_the_rest file_a true world2 (Ok tt)
              (after (CachePartitionFile_delete file_a true) world2))
    as (Hobj & Hrows & _); [vm_compute; reflexivity|].
  split.
  - apply (Hobj "thumbnails" "pages-a");
      [vm_compute; reflexivity | vm_compute; reflexivity | right; discriminate].
  - apply Hrows; [vm_compute; auto | vm_compute; discriminate].
Defined.

Lemma prune_loop_frame fuel self attempts w r w' s k :
  prune_loop fuel self attempts w = Some (r, w') →
  (∀ f, In f (get_files self w) →
        ¬ (eval (file_storage f) w = Ok s ∧ eval (full_filename f) w = Ok k)) →
  objects (get_backend s w') !! k = objects (get_backend s w) !! k.
Proof.
  revert attempts w. induction fuel as [|fuel IH]; [done|].
  intros a w Hloop Hother. simpl in Hloop.
  destruct (prune_iteration self a w) as [r1 w1] eqn:Hi.
  apply prune_iteration_cases in Hi
    as [(-> & -> & _)|[(v & s1 & key1 & Hv & -> & Hd & _)|[(v & _ & -> & _ & ->)|(e & -> & -> & _)]]].
  - by injection Hloop as <- <-.
  - apply prune_victim_Some in Hv as [_ Hv]. apply earliest_In in Hv.
    apply delete_cases in Hd as [(e & ? & _)|(_ & s2 & key2 & Hs & Hk & _ & ->)]; [done|].
    assert (Hcfg : same_config (deleted v s2 key2 w) w) by by repeat split.
    rewrite (IH a (deleted v s2 key2 w) Hloop).
    + apply frame_deleted.
      destruct (decide (s = s2)) as [->|]; [|by left].
      destruct (decide (k = key2)) as [->|]; [|by right].
      by destruct (Hother v Hv).
    + intros f Hf. rewrite get_files_deleted in Hf. apply without_In in Hf as [Hf _].
      rewrite (query_move _ _ _ (query_file_storage f) Hcfg).
      rewrite (query_move _ _ _ (query_full_filename f) Hcfg).
      by apply Hother.
  - destruct (_ <? _); [by injection Hloop as <- <- | by eapply IH].
  - by injection Hloop as <- <-.
Qed.

(** X20: [Cache.prune] removes objects of files of its own cache only:
    whatever its outcome, an object of a storage that is not at the
    combined key of a file of the cache is afterwards what it was
    before. *)
Theorem prune_leaves_other_objects (self : Cache) (w : World) (r : Outcome unit)
    (w' : World) (s k : string) :
  prune self w = (r, w') →
  (∀ f, In f (get_files self w) →
        ¬ (eval (file_storage f) w = Ok s ∧ eval (full_filename f) w = Ok k)) →
  objects (get_backend s w') !! k = objects (get_backend s w) !! k.
Proof.
  intros Hp. pose proof (prune_run self w) as Hr. rewrite Hp in Hr.
  by eapply prune_loop_frame.
Qed.

Lemma prune_leaves_other_objects_witness :
  prune_victim thumbnails (put_object "thumbnails" "stray" [Byte.x41] world2)
    = Some file_a ∧
  objects (get_backend "thumbnails"
             (after (prune thumbnails)
                (put_object "thumbnails" "stray" [Byte.x41] world2))) !! "stray"
  = Some [Byte.x41].
Proof.
  split; [vm_compute; reflexivity|].
  rewrite (prune_leaves_other_objects thumbnails
             (put_object "thumbnails" "stray" [Byte.x41] world2)
             (eval (prune thumbnails)
                (put_object "thumbnails" "stray" [Byte.x41] world2))
             (after (prune thumbnails)
                (put_object "thumbnails" "stray" [Byte.x41] world2))
             "thumbnails" "stray").
  - vm_compute. reflexivity.
  - unfold eval, after.
    by destruct (prune thumbnails (put_object "thumbnails" "stray" [Byte.x41] world2)).
  - assert (Hfiles : get_files thumbnails
                       (put_object "thumbnails" "stray" [Byte.x41] world2)
                     = [file_a; file_b]) by (vm_compute; reflexivity).
    assert (Ha : eval (full_filename file_a)
                   (put_object "thumbnails" "stray" [Byte.x41] world2)
                 = Ok "pages-a") by (vm_compute; reflexivity).
    assert (Hb : eval (full_filename file_b)
                   (put_object "thumbnails" "stray" [Byte.x41] world2)
                 = Ok "covers-b") by (vm_compute; reflexivity).
    intros f Hf [_ Hk]. rewrite Hfiles in Hf.
    destruct Hf as [<-|[<-|[]]]; congruence.
Defined.

(** ** Lock names *)

Lemma dashless_pretty_N_go x s : dashless s = true → dashless (pretty_N_go x s) = true.
Proof.
  revert s. induction (N.lt_wf_0 x) as [x _ IH]. intros s Hs.
  assert (x = 0 ∨ 0 < x)%N as [->|Hpos] by lia; [by rewrite pretty_N_go_0|].
  rewrite pretty_N_go_step by done. apply IH; [by apply N.div_lt|].
  simpl. rewrite Hs. unfold pretty_N_char. by repeat case_match.
Qed.

Lemma dashless_pretty (z : Z) : 0 ≤ z → dashless (pretty z) = true.
Proof.
  destruct z as [|p|p]; [done| |lia]. intros _.
  unfold pretty, pretty_Z, pretty, pretty_positive, pretty, pretty_N.
  destruct (decide _); [done|]. by apply dashless_pretty_N_go.
Qed.

Lemma dashless_split a b r1 r2 :
  dashless a = true → dashless b = true →
  a +:+ String "-" r1 = b +:+ String "-" r2 → a = b ∧ r1 = r2.
Proof.
  revert b. induction a as [|c a IH]; intros [|d b] Ha Hb.
  - by intros [= ->].
  - intros [= <- _]. done.
  - intros [= -> _]. done.
  - intros [= -> Heq]. simpl in Ha, Hb.
    apply andb_true_iff in Ha as [_ Ha]. apply andb_true_iff in Hb as [_ Hb].
    destruct (IH b Ha Hb Heq) as [-> ->]. done.
Qed.

Lemma get_file_lock_name_run self fname w n :
  eval (get_file_lock_name self fname) w = Ok n →
  n = "cache_partition-file-" +:+ pretty (partition_cache self) +:+
      String "-" (pretty (partition_pk self) +:+ String "-" fname).
Proof.
  unfold eval, get_file_lock_name, bind, get_cache.
  destruct (find _ (caches w)) as [c|] eqn:Hf; [|done].
  apply find_some in Hf as [_ Hpk]. apply bool_decide_eq_true in Hpk.
  simpl. rewrite Hpk. by intros [= <-].
Qed.

(** X21: the lock name tells files apart where the combined key does
    not: with keys that are not negative, the names
    [get_file_lock_name] gives for two files are different as soon as
    the files are of different partitions or have different filenames. *)
Theorem lock_names_distinct (p1 p2 : CachePartition) (f1 f2 : string) (w : World)
    (n1 n2 : string) :
  0 ≤ partition_cache p1 → 0 ≤ partition_cache p2 →
  0 ≤ partition_pk p1 → 0 ≤ partition_pk p2 →
  eval (get_file_lock_name p1 f1) w = Ok n1 →
  eval (get_file_lock_name p2 f2) w = Ok n2 →
  partition_pk p1 ≠ partition_pk p2 ∨ f1 ≠ f2 →
  n1 ≠ n2.
Proof.
  intros Hc1 Hc2 Hp1 Hp2 Hn1 Hn2 Hne Heq.
  apply get_file_lock_name_run in Hn1, Hn2. rewrite Hn1, Hn2 in Heq.
  apply (inj (String.app _)) in Heq.
  apply dashless_split in Heq as [_ Heq]; [|by apply dashless_pretty..].
  apply dashless_split in Heq as [Hpk Hf]; [|by apply dashless_pretty..].
  apply (inj pretty) in Hpk. by destruct Hne.
Qed.

Lemma lock_names_distinct_witness :
  get_full_filename part_a "b-c" = get_full_filename part_ab "c" ∧
  "cache_partition-file-1-1-b-c" ≠ "cache_partition-file-1-2-c".
Proof.
  split; [vm_compute; reflexivity|].
  apply (lock_names_distinct part_a part_ab "b-c" "c" world_ab);
    [vm_compute; discriminate.. | vm_compute; reflexivity | vm_compute; reflexivity
    | left; vm_compute; discriminate].
Defined.
